(** * Fixed-point amount conversion of the EIP-7702 demo (main.go)

    A shallow embedding of [ToIntByPrecise] and [ToStringByPrecise] from
    [main.go], together with the parts of the Go standard library they call
    ([strings.TrimSpace], [strings.Split], [math/big.Int]).

    - Go strings are byte sequences: [gostring := list ascii].
    - [int64] values are integers of [Z] with the two's-complement
      wrap-around written out ([wrap64]).
    - [*big.Int] values are pointers into a store of integer cells; the
      methods of [big.Int] read and write that store, a nil receiver or
      operand panics.  The functions of [main.go] run in the state-and-panic
      monad [M]. *)

From Stdlib Require Import String Ascii.
From Stdlib Require Import ZArith List Bool Lia.
Import ListNotations.

Open Scope string_scope.
Open Scope list_scope.
Open Scope Z_scope.

(* ------------------------------------------------------------------ *)
(** ** Go strings and fixed-width integers *)

Definition gostring := list ascii.

Definition bytes (s : string) : gostring := list_ascii_of_string s.
Coercion bytes : string >-> gostring.

(** The numeric value of a byte. *)
Definition code (c : ascii) : Z := Z.of_N (N_of_ascii c).

(** [len(s)] as an [int]. *)
Definition len (s : gostring) : Z := Z.of_nat (length s).

Definition min_int64 : Z := - 2 ^ 63.
Definition max_int64 : Z := 2 ^ 63 - 1.

(** Reduction of an integer to the [int64] it is stored as. *)
Definition wrap64 (z : Z) : Z := (z + 2 ^ 63) mod 2 ^ 64 - 2 ^ 63.

Definition in_int64 (z : Z) : Prop := min_int64 <= z <= max_int64.

(* ------------------------------------------------------------------ *)
(** ** Package unicode *)

Module unicode.

(** [unicode.IsSpace]: the code points with the White_Space property. *)
Definition IsSpace (r : Z) : bool :=
  if r <=? 255 then
    (* Latin-1: '\t' '\n' '\v' '\f' '\r' ' ' U+0085 (NEL) U+00A0 (NBSP) *)
    ((9 <=? r) && (r <=? 13)) || (r =? 32) || (r =? 133) || (r =? 160)
  else
    (r =? 5760)                              (* U+1680 *)
    || ((8192 <=? r) && (r <=? 8202))        (* U+2000 .. U+200A *)
    || (r =? 8232) || (r =? 8233)            (* U+2028, U+2029 *)
    || (r =? 8239)                           (* U+202F *)
    || (r =? 8287)                           (* U+205F *)
    || (r =? 12288).                         (* U+3000 *)

End unicode.

(* ------------------------------------------------------------------ *)
(** ** Package unicode/utf8 *)

Module utf8.

Definition RuneError : Z := 65533.   (* U+FFFD *)
Definition RuneSelf : Z := 128.
Definition UTFMax : nat := 4.

Definition maskx : Z := 63.   (* 0b00111111 *)
Definition mask2 : Z := 31.   (* 0b00011111 *)
Definition mask3 : Z := 15.   (* 0b00001111 *)
Definition mask4 : Z := 7.    (* 0b00000111 *)
Definition locb : Z := 128.   (* 0b10000000 *)
Definition hicb : Z := 191.   (* 0b10111111 *)

(** The table [first] for the lead bytes of multi-byte sequences: the size
    of the sequence and the range accepted for its second byte.  [None] is
    the entry [xx] of an invalid lead byte. *)
Definition first (s0 : Z) : option (nat * Z * Z) :=
  if (194 <=? s0) && (s0 <=? 223) then Some (2%nat, locb, hicb)       (* C2..DF *)
  else if s0 =? 224 then Some (3%nat, 160, hicb)                      (* E0 *)
  else if (225 <=? s0) && (s0 <=? 236) then Some (3%nat, locb, hicb)  (* E1..EC *)
  else if s0 =? 237 then Some (3%nat, locb, 159)                      (* ED *)
  else if (238 <=? s0) && (s0 <=? 239) then Some (3%nat, locb, hicb)  (* EE..EF *)
  else if s0 =? 240 then Some (4%nat, 144, hicb)                      (* F0 *)
  else if (241 <=? s0) && (s0 <=? 243) then Some (4%nat, locb, hicb)  (* F1..F3 *)
  else if s0 =? 244 then Some (4%nat, locb, 143)                      (* F4 *)
  else None.

(** [utf8.DecodeRuneInString]: the first rune of [s] and its width in
    bytes; [(RuneError, 0)] on the empty string and [(RuneError, 1)] on an
    invalid encoding. *)
Definition DecodeRune (s : gostring) : Z * nat :=
  match s with
  | [] => (RuneError, 0%nat)
  | c0 :: t0 =>
    let s0 := code c0 in
    if s0 <? RuneSelf then (s0, 1%nat)
    else
      match first s0 with
      | None => (RuneError, 1%nat)
      | Some (sz, lo, hi) =>
        if (length s <? sz)%nat then (RuneError, 1%nat)
        else
          match t0 with
          | [] => (RuneError, 1%nat)
          | c1 :: t1 =>
            let s1 := code c1 in
            if (s1 <? lo) || (hi <? s1) then (RuneError, 1%nat)
            else if (sz <=? 2)%nat then
              (Z.lor (Z.shiftl (Z.land s0 mask2) 6) (Z.land s1 maskx), 2%nat)
            else
              match t1 with
              | [] => (RuneError, 1%nat)
              | c2 :: t2 =>
                let s2 := code c2 in
                if (s2 <? locb) || (hicb <? s2) then (RuneError, 1%nat)
                else if (sz <=? 3)%nat then
                  (Z.lor (Z.lor (Z.shiftl (Z.land s0 mask3) 12)
                                (Z.shiftl (Z.land s1 maskx) 6))
                         (Z.land s2 maskx), 3%nat)
                else
                  match t2 with
                  | [] => (RuneError, 1%nat)
                  | c3 :: _ =>
                    let s3 := code c3 in
                    if (s3 <? locb) || (hicb <? s3) then (RuneError, 1%nat)
                    else
                      (Z.lor (Z.lor (Z.lor (Z.shiftl (Z.land s0 mask4) 18)
                                           (Z.shiftl (Z.land s1 maskx) 12))
                                    (Z.shiftl (Z.land s2 maskx) 6))
                             (Z.land s3 maskx), 4%nat)
                  end
              end
          end
      end
  end.

(** [utf8.RuneStart]: the byte is not a continuation byte. *)
Definition RuneStart (b : Z) : bool := negb (Z.land b 192 =? 128).

(** [s[i]] for an index known to be in range. *)
Definition byte_at (s : gostring) (i : Z) : Z :=
  code (nth (Z.to_nat i) s zero).

(** The loop of [DecodeLastRuneInString] that walks back from [start] to
    the nearest start byte, not further than [lim]. *)
Fixpoint back_to_start (fuel : nat) (s : gostring) (start lim : Z) : Z :=
  match fuel with
  | O => start
  | S fuel' =>
    if start <? lim then start
    else if RuneStart (byte_at s start) then start
    else back_to_start fuel' s (start - 1) lim
  end.

(** [utf8.DecodeLastRuneInString]: the last rune of [s] and its width. *)
Definition DecodeLastRune (s : gostring) : Z * nat :=
  let end_ := len s in
  if end_ =? 0 then (RuneError, 0%nat)
  else
    let start := end_ - 1 in
    let r := byte_at s start in
    if r <? RuneSelf then (r, 1%nat)
    else
      let lim := Z.max 0 (end_ - Z.of_nat UTFMax) in
      let start := back_to_start (S UTFMax) s (start - 1) lim in
      let start := Z.max 0 start in
      let '(r, size) := DecodeRune (skipn (Z.to_nat start) s) in
      if start + Z.of_nat size =? end_ then (r, size)
      else (RuneError, 1%nat).

End utf8.

(* ------------------------------------------------------------------ *)
(** ** Package strings *)

Module strings.

(** The loop of [indexFunc]: [s] is what is left of the string from byte
    index [i] on. *)
Fixpoint indexFunc_loop (fuel : nat) (f : Z -> bool) (truth : bool)
         (s : gostring) (i : nat) : option nat :=
  match fuel with
  | O => None
  | S fuel' =>
    match s with
    | [] => None
    | _ :: _ =>
      let '(r, size) := utf8.DecodeRune s in
      if Bool.eqb (f r) truth then Some i
      else indexFunc_loop fuel' f truth (skipn size s) (i + size)%nat
    end
  end.

(** [indexFunc]: the byte index of the first rune [r] of [s] with
    [f r = truth]; [None] stands for -1. *)
Definition indexFunc (s : gostring) (f : Z -> bool) (truth : bool)
  : option nat :=
  indexFunc_loop (length s) f truth s 0%nat.

(** The loop of [lastIndexFunc], from byte index [i] down. *)
Fixpoint lastIndexFunc_loop (fuel : nat) (f : Z -> bool) (truth : bool)
         (s : gostring) (i : nat) : option nat :=
  match fuel with
  | O => None
  | S fuel' =>
    if (0 <? i)%nat then
      let '(r, size) := utf8.DecodeLastRune (firstn i s) in
      let i := (i - size)%nat in
      if Bool.eqb (f r) truth then Some i
      else lastIndexFunc_loop fuel' f truth s i
    else None
  end.

(** [lastIndexFunc]: the byte index of the last rune [r] of [s] with
    [f r = truth]; [None] stands for -1. *)
Definition lastIndexFunc (s : gostring) (f : Z -> bool) (truth : bool)
  : option nat :=
  lastIndexFunc_loop (S (length s)) f truth s (length s).

(** [strings.TrimLeftFunc]. *)
Definition TrimLeftFunc (s : gostring) (f : Z -> bool) : gostring :=
  match indexFunc s f false with
  | None => []
  | Some i => skipn i s
  end.

(** [strings.TrimRightFunc]. *)
Definition TrimRightFunc (s : gostring) (f : Z -> bool) : gostring :=
  match lastIndexFunc s f false with
  | Some i =>
    if utf8.RuneSelf <=? utf8.byte_at s (Z.of_nat i) then
      let '(_, wid) := utf8.DecodeRune (skipn i s) in
      firstn (i + wid) s
    else firstn (i + 1) s
  | None => []
  end.

(** [strings.TrimFunc]. *)
Definition TrimFunc (s : gostring) (f : Z -> bool) : gostring :=
  TrimRightFunc (TrimLeftFunc s f) f.

(** [strings.TrimSpace]: [s] without its leading and trailing white space,
    as defined by Unicode.  Go's implementation goes through the ASCII
    bytes at both ends first and falls back on [TrimFunc] and
    [TrimRightFunc] at the first byte that is not ASCII; the result is that
    of [TrimFunc s unicode.IsSpace]. *)
Definition TrimSpace (s : gostring) : gostring :=
  TrimFunc s unicode.IsSpace.

(** [strings.Split(s, sep)] for a separator of one byte, as [main.go] uses
    it: the substrings of [s] between the occurrences of [sep]; a string
    without [sep] gives the one-element slice [[s]]. *)
Fixpoint Split (s : gostring) (sep : ascii) : list gostring :=
  match s with
  | [] => [[]]
  | c :: t =>
    if Ascii.eqb c sep then [] :: Split t sep
    else
      match Split t sep with
      | h :: r => (c :: h) :: r
      | [] => [[c]]
      end
  end.

End strings.

(* ------------------------------------------------------------------ *)
(** ** The store of [big.Int] values and the monad of the program *)

(** A [*big.Int] is [nil] or the address of a cell of the store. *)
Definition ptr := option nat.
Definition nil : ptr := None.

Definition heap := list Z.

(** A computation reads and writes the store and returns a value, or
    panics ([None]). *)
Definition M (A : Type) : Type := heap -> option (A * heap).

Definition ret {A} (a : A) : M A := fun h => Some (a, h).

Definition panic {A} : M A := fun _ => None.

Definition bind {A B} (m : M A) (k : A -> M B) : M B :=
  fun h => match m h with
           | Some (a, h') => k a h'
           | None => None
           end.

Notation "x <- m ;; k" := (bind m (fun x => k))
  (at level 61, m at next level, right associativity).
Notation "m ;;; k" := (bind m (fun _ => k))
  (at level 61, right associativity).

(** A fresh cell holding [v]. *)
Definition alloc (v : Z) : M ptr :=
  fun h => Some (Some (length h), h ++ [v]).

(** The value [p] points to; a nil or dangling pointer panics. *)
Definition load (p : ptr) : M Z :=
  fun h => match p with
           | Some l => match nth_error h l with
                       | Some v => Some (v, h)
                       | None => None
                       end
           | None => None
           end.

Fixpoint update (l : nat) (v : Z) (h : heap) : heap :=
  match h, l with
  | [], _ => []
  | _ :: t, O => v :: t
  | x :: t, S l' => x :: update l' v t
  end.

Definition store (p : ptr) (v : Z) : M unit :=
  fun h => match p with
           | Some l => if (l <? length h)%nat then Some (tt, update l v h)
                       else None
           | None => None
           end.

(** What a caller holding [p] sees in the store [h]. *)
Definition deref (h : heap) (p : ptr) : option Z :=
  match p with
  | Some l => nth_error h l
  | None => None
  end.

(* ------------------------------------------------------------------ *)
(** ** Package math/big *)

Module big.

(** [new(big.Int)]: a fresh integer of value 0. *)
Definition new_Int : M ptr := alloc 0.

(** [big.NewInt(x)] for an [int64] [x]. *)
Definition NewInt (x : Z) : M ptr := alloc x.

(** [z.Set(x)]: sets [z] to [x] and returns [z]. *)
Definition Set_ (z x : ptr) : M ptr :=
  v <- load x ;; store z v ;;; ret z.

(** [z.Mul(x, y)]: sets [z] to the product and returns [z]. *)
Definition Mul (z x y : ptr) : M ptr :=
  vx <- load x ;; vy <- load y ;; store z (vx * vy) ;;; ret z.

(** Euclidean division: the remainder is never negative. *)
Definition euclid_div (x y : Z) : Z := Z.sgn y * (x / Z.abs y).

(** [z.Div(x, y)]: sets [z] to the quotient of the Euclidean division of
    [x] by [y] and returns [z]; panics when [y] is 0. *)
Definition Div (z x y : ptr) : M ptr :=
  vx <- load x ;; vy <- load y ;;
  if vy =? 0 then panic
  else store z (euclid_div vx vy) ;;; ret z.

(** [z.Exp(x, y, nil)]: sets [z] to [x**y], to 1 when [y <= 0], and
    returns [z]. *)
Definition Exp (z x y : ptr) : M ptr :=
  vx <- load x ;; vy <- load y ;;
  store z (if vy <=? 0 then 1 else vx ^ vy) ;;; ret z.

(** *** Text to integer, base 10 *)

Definition is_digit (c : ascii) : bool := (48 <=? code c) && (code c <=? 57).

Definition digit_val (c : ascii) : Z := code c - 48.

(** [scanSign]: an optional sign; fails at the end of the input. *)
Definition scanSign (s : gostring) : option (bool * gostring) :=
  match s with
  | [] => None
  | c :: t =>
    if Ascii.eqb c "-" then Some (true, t)
    else if Ascii.eqb c "+" then Some (false, t)
    else Some (false, s)
  end.

(** The digit loop of [nat.scan] in base 10 without separators: the value
    and the number of the leading decimal digits, and the unread rest. *)
Fixpoint scan_digits (s : gostring) (acc : Z) (count : nat)
  : Z * nat * gostring :=
  match s with
  | c :: t =>
    if is_digit c then scan_digits t (acc * 10 + digit_val c) (S count)
    else (acc, count, s)
  | [] => (acc, count, s)
  end.

(** [Int.scan] followed by the end-of-input test of [setFromScanner], for
    base 10 and a receiver of value [old] that is not negative: the value
    the receiver is left with, and whether the whole of [s] was a number.
    When the sign cannot be read the receiver is not touched; otherwise its
    magnitude is assigned before the error of [nat.scan] is looked at. *)
Definition setFromScanner (old : Z) (s : gostring) : Z * bool :=
  match scanSign s with
  | None => (old, false)
  | Some (neg, r) =>
    let '(abs, count, rest) := scan_digits r 0 0 in
    if (count =? 0)%nat then (abs, false)                (* errNoDigits *)
    else
      let v := if neg then - abs else abs in
      match rest with
      | [] => (v, true)
      | _ :: _ => (v, false)      (* input left over *)
      end
  end.

(** [z.SetString(s, 10)]: returns [(z, true)] when [s] is an optionally
    signed decimal number, [(nil, false)] otherwise.  The documentation
    leaves the value of [z] undefined after a failure; the implementation
    leaves in [z] what [setFromScanner] read before it failed. *)
Definition SetString (z : ptr) (s : gostring) : M (ptr * bool) :=
  old <- load z ;;
  let '(v, ok) := setFromScanner old s in
  store z v ;;;
  ret (if ok then z else nil, ok).

(** *** Integer to text, base 10 *)

Definition digit_char (d : Z) : ascii := ascii_of_N (Z.to_N (48 + d)).

(** The decimal digits of [n >= 0], least significant first. *)
Fixpoint rdigits (fuel : nat) (n : Z) : gostring :=
  match fuel with
  | O => []
  | S fuel' =>
    digit_char (n mod 10) :: (if n <? 10 then [] else rdigits fuel' (n / 10))
  end.

(** The decimal representation of [n >= 0], without leading zeros. *)
Definition utoa (n : Z) : gostring :=
  rev (rdigits (S (Z.to_nat (Z.log2 n))) n).

(** [x.Text(10)] for an integer [x]. *)
Definition Text (x : Z) : gostring :=
  if x <? 0 then "-"%char :: utoa (- x) else utoa x.

(** [x.String()]: the decimal representation of [x]; ["<nil>"] for a nil
    pointer. *)
Definition String_ (x : ptr) : M gostring :=
  match x with
  | None => ret (bytes "<nil>")
  | Some _ => v <- load x ;; ret (Text v)
  end.

End big.

(* ------------------------------------------------------------------ *)
(** ** main.go *)

(** [parts[i]]; an index out of range panics. *)
Definition index (parts : list gostring) (i : nat) : M gostring :=
  match nth_error parts i with
  | Some p => ret p
  | None => panic
  end.

(** Lines 143-147 of [ToIntByPrecise]: the slice [parts] once the missing
    fractional part has been appended. *)
Definition ToIntByPrecise_parts (value : gostring) : list gostring :=
  let value := strings.TrimSpace value in
  let parts := strings.Split value "." in
  if (length parts =? 1)%nat then parts ++ [bytes "0"] else parts.

(** Lines 148-151: the exponent of the power of ten. *)
Definition ToIntByPrecise_precise (precise : Z) (part1 : gostring) : Z :=
  let precise := wrap64 (precise - len part1) in
  if precise <? 0 then 0 else precise.

Definition ToIntByPrecise (value : gostring) (precise : Z) : M ptr :=
  let parts := ToIntByPrecise_parts value in             (* 143-147 *)
  part1 <- index parts 1 ;;                              (* 148 *)
  let precise := ToIntByPrecise_precise precise part1 in (* 148-151 *)
  part0 <- index parts 0 ;;                              (* 152 *)
  part1 <- index parts 1 ;;
  let value := part0 ++ part1 in
  bi <- big.new_Int ;;                                   (* 153 *)
  big.SetString bi value ;;;                             (* 154 *)
  (if 0 <? precise then                                  (* 155 *)
     z <- big.new_Int ;;                                 (* 156 *)
     ten <- big.NewInt 10 ;;
     e <- big.NewInt precise ;;
     pow <- big.Exp z ten e ;;
     big.Mul bi bi pow ;;;
     ret tt
   else ret tt) ;;;
  ret bi.                                                (* 158 *)

(** Lines 166-169 of [ToStringByPrecise]: the exponent of the divisor. *)
Definition ToStringByPrecise_precise (precise : Z) : Z :=
  let precise := wrap64 (- precise) in
  if precise <? 0 then 0 else precise.

Definition ToStringByPrecise (value : ptr) (precise : Z) : M gostring :=
  match value with
  | None => ret (bytes "0")                              (* 162-164 *)
  | Some _ =>
    z <- big.new_Int ;;                                  (* 165 *)
    value <- big.Set_ z value ;;
    let precise := ToStringByPrecise_precise precise in  (* 166-169 *)
    z <- big.new_Int ;;                                  (* 170 *)
    ten <- big.NewInt 10 ;;
    e <- big.NewInt precise ;;
    pow <- big.Exp z ten e ;;
    big.Div value value pow ;;;
    big.String_ value                                    (* 171 *)
  end.

(** The integer a call of [ToIntByPrecise] returns, run on its own. *)
Definition ToIntByPrecise_value (value : gostring) (precise : Z)
  : option Z :=
  match ToIntByPrecise value precise [] with
  | Some (p, h) => deref h p
  | None => None
  end.

(** The string a call of [ToStringByPrecise] returns for a nil pointer
    ([None]) or a pointer to an integer [v] ([Some v]). *)
Definition ToStringByPrecise_value (value : option Z) (precise : Z)
  : option gostring :=
  match value with
  | None => option_map fst (ToStringByPrecise nil precise [])
  | Some v => option_map fst (ToStringByPrecise (Some 0%nat) precise [v])
  end.

(** Scaling down with [ToStringByPrecise] and up again with
    [ToIntByPrecise]. *)
Definition roundtrip (n precise : Z) : option Z :=
  match ToStringByPrecise_value (Some n) precise with
  | Some s => ToIntByPrecise_value s precise
  | None => None
  end.

(** The integer part and the fractional part [ToIntByPrecise] works with,
    the digit string it parses and the exponent it scales by. *)
Definition intPart (value : gostring) : gostring :=
  nth 0 (ToIntByPrecise_parts value) [].

Definition fracPart (value : gostring) : gostring :=
  nth 1 (ToIntByPrecise_parts value) [].

Definition digitString (value : gostring) : gostring :=
  intPart value ++ fracPart value.

Definition effectivePrecision (value : gostring) (precise : Z) : Z :=
  ToIntByPrecise_precise precise (fracPart value).

(* ------------------------------------------------------------------ *)
(** ** Notions the statements use *)

(** The number a string of decimal digits denotes. *)
Definition digits_value (ds : gostring) : Z :=
  fold_left (fun a c => a * 10 + big.digit_val c) ds 0.

(** A string of decimal digits. *)
Definition all_digits (s : gostring) : Prop :=
  Forall (fun c => big.is_digit c = true) s.

(** A byte of ASCII that is no white space. *)
Definition plain (c : ascii) : bool :=
  (code c <? utf8.RuneSelf) && negb (unicode.IsSpace (code c)).

(** A string made of white space only: each of its runes, decoded in turn,
    is white space. *)
Inductive WhiteSpace : gostring -> Prop :=
| WhiteSpace_nil : WhiteSpace []
| WhiteSpace_rune s r size :
    s <> [] ->
    utf8.DecodeRune s = (r, size) ->
    unicode.IsSpace r = true ->
    WhiteSpace (skipn size s) ->
    WhiteSpace s.

(** A string of ASCII white space: spaces, tabs, line feeds, vertical
    tabs, form feeds and carriage returns. *)
Definition ascii_blank (s : gostring) : Prop :=
  Forall (fun c => In c [" "%char; "009"%char; "010"%char; "011"%char;
                         "012"%char; "013"%char]) s.

(** A string of digits as [String] prints a number that is not negative:
    ["0"] itself, or digits that do not start with [0]. *)
Definition canonical (ds : gostring) : Prop :=
  all_digits ds /\
  (ds = ["0"%char] \/ exists c t, ds = c :: t /\ c <> "0"%char).

(** A call of [ToIntByPrecise] followed by a call of [ToStringByPrecise]
    on the pointer it returned, in one store. *)
Definition scale_then_print (value : gostring) (precise precise' : Z)
  : M (ptr * gostring) :=
  bi <- ToIntByPrecise value precise ;;
  s <- ToStringByPrecise bi precise' ;;
  ret (bi, s).

(** Two calls of [ToIntByPrecise] one after the other, as for [amountIn]
    and [amountOutMin] on lines 106-107 of [main]. *)
Definition two_amounts (a : gostring) (p : Z) (b : gostring) (q : Z)
  : M (ptr * ptr) :=
  x <- ToIntByPrecise a p ;;
  y <- ToIntByPrecise b q ;;
  ret (x, y).

(* ------------------------------------------------------------------ *)
(** ** Arithmetic on [int64] *)

Lemma wrap64_id z : in_int64 z -> wrap64 z = z.
Proof.
  unfold in_int64, min_int64, max_int64, wrap64. intros H.
  rewrite Z.mod_small; lia.
Qed.

Lemma wrap64_range z : in_int64 (wrap64 z).
Proof.
  unfold in_int64, min_int64, max_int64, wrap64.
  pose proof (Z.mod_pos_bound (z + 2 ^ 63) (2 ^ 64) ltac:(lia)). lia.
Qed.

Lemma precise_nonneg precise part1 :
  0 <= ToIntByPrecise_precise precise part1.
Proof.
  unfold ToIntByPrecise_precise.
  destruct (Z.ltb_spec (wrap64 (precise - len part1)) 0); lia.
Qed.

(* ------------------------------------------------------------------ *)
(** ** The store: cells beyond a prefix [h] *)

Lemma nth_error_beyond (h t : heap) k :
  nth_error (h ++ t) (length h + k) = nth_error t k.
Proof.
  rewrite nth_error_app2 by lia. f_equal. lia.
Qed.

Lemma update_beyond (h t : heap) k v :
  update (length h + k) v (h ++ t) = h ++ update k v t.
Proof.
  induction h as [|x h IH]; simpl; [reflexivity|]. now rewrite IH.
Qed.

Lemma update_length l v (h : heap) : length (update l v h) = length h.
Proof.
  revert l; induction h as [|x h IH]; intros [|l]; simpl; auto.
Qed.

Lemma alloc_beyond (h t : heap) v :
  alloc v (h ++ t) = Some (Some (length h + length t)%nat, h ++ (t ++ [v])).
Proof.
  unfold alloc. now rewrite length_app, app_assoc.
Qed.

Lemma load_beyond (h t : heap) k v :
  nth_error t k = Some v ->
  load (Some (length h + k)%nat) (h ++ t) = Some (v, h ++ t).
Proof.
  intros H. unfold load. now rewrite nth_error_beyond, H.
Qed.

Lemma load_within (h t : heap) l v :
  nth_error h l = Some v ->
  load (Some l) (h ++ t) = Some (v, h ++ t).
Proof.
  intros H. unfold load.
  rewrite nth_error_app1 by (apply nth_error_Some; congruence).
  now rewrite H.
Qed.

Lemma store_beyond (h t : heap) k v :
  (k < length t)%nat ->
  store (Some (length h + k)%nat) v (h ++ t) = Some (tt, h ++ update k v t).
Proof.
  intros H. unfold store. rewrite length_app.
  destruct (Nat.ltb_spec (length h + k) (length h + length t)); [|lia].
  now rewrite update_beyond.
Qed.

(** Runs the reads, writes and allocations at the head of a computation
    on a store of the form [h ++ t]. *)
Ltac heap_step :=
  first
    [ rewrite alloc_beyond
    | erewrite load_beyond by reflexivity
    | erewrite load_within by eassumption
    | erewrite store_beyond by (simpl; lia) ];
  cbv beta iota; cbn [length app update Nat.add]; unfold ret.

Ltac heap_steps := unfold ret; repeat heap_step.

Lemma pow10_pos e : 0 <= e -> 0 < 10 ^ e.
Proof. intros. apply Z.pow_pos_nonneg; lia. Qed.

Lemma euclid_div_pos x y : 0 < y -> big.euclid_div x y = x / y.
Proof.
  intros H. unfold big.euclid_div.
  rewrite Z.sgn_pos, Z.abs_eq by lia. lia.
Qed.

(* ------------------------------------------------------------------ *)
(** ** What the two functions compute, on any store *)

Lemma Split_cons s sep : exists p ps, strings.Split s sep = p :: ps.
Proof.
  induction s as [|c t [p [ps IH]]]; simpl; [now eauto|].
  destruct (Ascii.eqb c sep); [now eauto|]. rewrite IH. now eauto.
Qed.

Lemma parts_two value :
  exists p0 p1 ps, ToIntByPrecise_parts value = p0 :: p1 :: ps.
Proof.
  unfold ToIntByPrecise_parts.
  destruct (Split_cons (strings.TrimSpace value) ".") as [p [ps E]].
  rewrite E. destruct ps as [|p1 ps]; simpl; eauto.
Qed.

Lemma ToIntByPrecise_run value precise h :
  let e := effectivePrecision value precise in
  let v := fst (big.setFromScanner 0 (digitString value)) in
  ToIntByPrecise value precise h =
  Some (Some (length h),
        h ++ (v * 10 ^ e) :: (if 0 <? e then [10 ^ e; 10; e] else [])).
Proof.
  intros e v. subst e v.
  unfold effectivePrecision, digitString, intPart, fracPart, ToIntByPrecise.
  destruct (parts_two value) as [p0 [p1 [ps E]]]. rewrite E.
  unfold index; simpl nth_error; simpl nth.
  unfold big.new_Int, big.NewInt, big.SetString, big.Exp, big.Mul.
  rewrite <- (app_nil_r h) at 1.
  replace (length h) with (length h + 0)%nat by lia.
  unfold bind.
  heap_steps.
  destruct (big.setFromScanner 0 (p0 ++ p1)) as [v ok]; simpl fst.
  heap_steps.
  set (e := ToIntByPrecise_precise precise p1).
  destruct (Z.ltb_spec 0 e) as [He|He].
  - heap_steps.
    destruct (Z.leb_spec e 0); [lia|]. reflexivity.
  - assert (e = 0) as -> by (pose proof (precise_nonneg precise p1); lia).
    now rewrite Z.mul_1_r.
Qed.

Lemma ToStringByPrecise_precise_nonneg precise :
  0 <= ToStringByPrecise_precise precise.
Proof.
  unfold ToStringByPrecise_precise. destruct (Z.ltb_spec (wrap64 (- precise)) 0); lia.
Qed.

Lemma ToStringByPrecise_run l v precise h :
  nth_error h l = Some v ->
  let e := ToStringByPrecise_precise precise in
  ToStringByPrecise (Some l) precise h =
  Some (big.Text (v / 10 ^ e), h ++ [v / 10 ^ e; 10 ^ e; 10; e]).
Proof.
  intros Hl e.
  pose proof (ToStringByPrecise_precise_nonneg precise) as He. fold e in He.
  unfold ToStringByPrecise.
  unfold big.new_Int, big.NewInt, big.Set_, big.Exp, big.Div, big.String_.
  fold (ToStringByPrecise_precise precise). fold e.
  rewrite <- (app_nil_r h) at 1.
  replace (length h) with (length h + 0)%nat by lia.
  unfold bind.
  heap_steps.
  assert (Hpow : (if e <=? 0 then 1 else 10 ^ e) = 10 ^ e).
  { destruct (Z.leb_spec e 0); [|reflexivity].
    now replace e with 0 by lia. }
  rewrite Hpow.
  pose proof (pow10_pos e He) as Hpos.
  destruct (Z.eqb_spec (10 ^ e) 0); [lia|].
  heap_steps.
  now rewrite euclid_div_pos.
Qed.

(* ------------------------------------------------------------------ *)
(** ** Scanning decimal digits *)

Lemma scan_digits_app ds rest acc count :
  Forall (fun c => big.is_digit c = true) ds ->
  big.scan_digits (ds ++ rest) acc count =
  big.scan_digits rest
    (fold_left (fun a c => a * 10 + big.digit_val c) ds acc)
    (count + length ds).
Proof.
  intros H. revert acc count.
  induction H as [|c ds Hc _ IH]; intros acc count; simpl.
  - now rewrite Nat.add_0_r.
  - rewrite Hc, IH. f_equal. lia.
Qed.

Lemma scan_digits_stop c rest acc count :
  big.is_digit c = false ->
  big.scan_digits (c :: rest) acc count = (acc, count, c :: rest).
Proof. intros H. simpl. now rewrite H. Qed.

Lemma is_digit_not_sign c :
  big.is_digit c = true -> Ascii.eqb c "-" = false /\ Ascii.eqb c "+" = false.
Proof.
  intros H. split; apply Ascii.eqb_neq; intros ->; discriminate H.
Qed.

(** A string of digits is accepted and read as the number it denotes. *)
Lemma setFromScanner_digits old ds :
  ds <> [] -> Forall (fun c => big.is_digit c = true) ds ->
  big.setFromScanner old ds = (digits_value ds, true).
Proof.
  intros Hne H. unfold big.setFromScanner.
  destruct ds as [|c ds]; [congruence|].
  unfold big.scanSign.
  destruct (is_digit_not_sign c) as [-> ->]; [now inversion H|].
  replace (big.scan_digits (c :: ds) 0 0)
    with (big.scan_digits ((c :: ds) ++ []) 0 0) by now rewrite app_nil_r.
  rewrite scan_digits_app by assumption.
  simpl. reflexivity.
Qed.

(** A string that starts with the digits [ds] and goes on with a byte that
    is no digit is rejected, and the receiver is left with the number [ds]
    denotes. *)
Lemma setFromScanner_junk old ds c rest :
  Forall (fun c => big.is_digit c = true) ds ->
  big.is_digit c = false ->
  (ds = [] -> Ascii.eqb c "-" = false /\ Ascii.eqb c "+" = false) ->
  big.setFromScanner old (ds ++ c :: rest) = (digits_value ds, false).
Proof.
  intros H Hc Hs. unfold big.setFromScanner.
  destruct ds as [|d ds].
  - destruct Hs as [Hm Hp]; [reflexivity|].
    simpl. rewrite Hm, Hp. simpl. now rewrite Hc.
  - simpl app. unfold big.scanSign.
    destruct (is_digit_not_sign d) as [-> ->]; [now inversion H|].
    change (d :: ds ++ c :: rest) with ((d :: ds) ++ c :: rest).
    rewrite scan_digits_app by assumption.
    rewrite scan_digits_stop by assumption.
    simpl. reflexivity.
Qed.

Lemma digits_value_app ds c :
  digits_value (ds ++ [c]) = digits_value ds * 10 + big.digit_val c.
Proof. unfold digits_value. now rewrite fold_left_app. Qed.

(* ------------------------------------------------------------------ *)
(** ** Printing decimal digits *)

Lemma digit_char_digit d :
  0 <= d < 10 ->
  big.is_digit (big.digit_char d) = true /\ big.digit_val (big.digit_char d) = d.
Proof.
  intros H.
  assert (d = 0 \/ d = 1 \/ d = 2 \/ d = 3 \/ d = 4 \/ d = 5 \/ d = 6 \/
          d = 7 \/ d = 8 \/ d = 9) as Hd by lia.
  repeat (destruct Hd as [-> | Hd]; [split; reflexivity|]).
  subst; split; reflexivity.
Qed.

Lemma rdigits_digits fuel n :
  0 <= n -> Forall (fun c => big.is_digit c = true) (big.rdigits fuel n).
Proof.
  revert n. induction fuel as [|fuel IH]; intros n Hn; simpl; [constructor|].
  constructor.
  - apply digit_char_digit. apply Z.mod_pos_bound. lia.
  - destruct (n <? 10); [constructor|]. apply IH. apply Z.div_pos; lia.
Qed.

Lemma rdigits_value fuel n :
  0 <= n < 2 ^ Z.of_nat fuel ->
  fold_right (fun c a => a * 10 + big.digit_val c) 0 (big.rdigits fuel n) = n.
Proof.
  revert n. induction fuel as [|fuel IH]; intros n Hn.
  - simpl in Hn. simpl. lia.
  - cbn [big.rdigits fold_right].
    destruct (digit_char_digit (n mod 10)) as [_ ->];
      [apply Z.mod_pos_bound; lia|].
    destruct (Z.ltb_spec n 10).
    + simpl. rewrite Z.mod_small; lia.
    + rewrite IH.
      * pose proof (Z.div_mod n 10 ltac:(lia)). lia.
      * rewrite Nat2Z.inj_succ, Z.pow_succ_r in Hn by lia.
        split; [apply Z.div_pos; lia|].
        apply Z.div_lt_upper_bound; lia.
Qed.

Lemma utoa_digits n :
  0 <= n -> Forall (fun c => big.is_digit c = true) (big.utoa n).
Proof.
  intros Hn. unfold big.utoa. apply Forall_rev. now apply rdigits_digits.
Qed.

Lemma utoa_nonempty n : big.utoa n <> [].
Proof.
  unfold big.utoa. simpl. intros H. apply (f_equal (@length _)) in H.
  rewrite length_app in H. simpl in H. lia.
Qed.

Lemma utoa_value n : 0 <= n -> digits_value (big.utoa n) = n.
Proof.
  intros Hn. unfold digits_value, big.utoa.
  pose proof (fold_left_rev_right
                (fun c a => a * 10 + big.digit_val c)
                (rev (big.rdigits (S (Z.to_nat (Z.log2 n))) n)) 0) as E.
  rewrite rev_involutive in E. cbv beta in E. rewrite <- E.
  apply rdigits_value. split; [assumption|].
  destruct (Z.eq_dec n 0) as [->|Hz]; [reflexivity|].
  rewrite Nat2Z.inj_succ, Z2Nat.id by apply Z.log2_nonneg.
  apply Z.log2_spec. lia.
Qed.

Lemma Text_nonneg n : 0 <= n -> big.Text n = big.utoa n.
Proof.
  intros Hn. unfold big.Text. destruct (Z.ltb_spec n 0); [lia|reflexivity].
Qed.

(* ------------------------------------------------------------------ *)
(** ** Trimming *)

Lemma In_skipn (c : ascii) n s : In c (skipn n s) -> In c s.
Proof.
  intros H. rewrite <- (firstn_skipn n s). apply in_or_app. now right.
Qed.

Lemma In_firstn (c : ascii) n s : In c (firstn n s) -> In c s.
Proof.
  intros H. rewrite <- (firstn_skipn n s). apply in_or_app. now left.
Qed.

Lemma In_TrimSpace c s : In c (strings.TrimSpace s) -> In c s.
Proof.
  unfold strings.TrimSpace, strings.TrimFunc.
  unfold strings.TrimRightFunc at 1.
  intros H.
  assert (In c (strings.TrimLeftFunc s unicode.IsSpace)) as H1.
  { destruct (strings.lastIndexFunc _ _ _) as [i|]; [|contradiction].
    destruct (utf8.RuneSelf <=? _).
    - destruct (utf8.DecodeRune _) as [r wid]. eapply In_firstn; eassumption.
    - eapply In_firstn; eassumption. }
  unfold strings.TrimLeftFunc in H1.
  destruct (strings.indexFunc _ _ _) as [i|]; [|contradiction].
  eapply In_skipn; eassumption.
Qed.

Lemma plain_decode c t :
  plain c = true ->
  utf8.DecodeRune (c :: t) = (code c, 1%nat) /\
  unicode.IsSpace (code c) = false.
Proof.
  unfold plain. intros H. apply andb_true_iff in H as [H1 H2].
  apply negb_true_iff in H2. split; [|assumption].
  unfold utf8.DecodeRune. now rewrite H1.
Qed.

Lemma TrimLeftFunc_plain c t :
  plain c = true ->
  strings.TrimLeftFunc (c :: t) unicode.IsSpace = c :: t.
Proof.
  intros H. destruct (plain_decode c t H) as [Hd Hs].
  unfold strings.TrimLeftFunc, strings.indexFunc.
  cbn [length strings.indexFunc_loop]. rewrite Hd, Hs. reflexivity.
Qed.

Lemma byte_at_last m d :
  utf8.byte_at (m ++ [d]) (Z.of_nat (length m)) = code d.
Proof.
  unfold utf8.byte_at. rewrite Nat2Z.id. now rewrite nth_middle.
Qed.

Lemma DecodeLastRune_plain m d :
  plain d = true ->
  utf8.DecodeLastRune (m ++ [d]) = (code d, 1%nat).
Proof.
  unfold plain. intros H. apply andb_true_iff in H as [H1 _].
  unfold utf8.DecodeLastRune, len.
  rewrite length_app. cbn [length].
  destruct (Z.eqb_spec (Z.of_nat (length m + 1)) 0); [lia|].
  replace (Z.of_nat (length m + 1) - 1) with (Z.of_nat (length m)) by lia.
  now rewrite byte_at_last, H1.
Qed.

Lemma TrimRightFunc_plain m d :
  plain d = true ->
  strings.TrimRightFunc (m ++ [d]) unicode.IsSpace = m ++ [d].
Proof.
  intros H. pose proof (DecodeLastRune_plain m d H) as Hd.
  unfold plain in H. apply andb_true_iff in H as [H1 H2].
  apply negb_true_iff in H2.
  unfold strings.TrimRightFunc, strings.lastIndexFunc.
  cbn [strings.lastIndexFunc_loop].
  rewrite firstn_all, Hd, H2.
  rewrite length_app. cbn [length Bool.eqb].
  destruct (Nat.ltb_spec 0 (length m + 1)); [|lia].
  replace (length m + 1 - 1)%nat with (length m) by lia.
  rewrite byte_at_last.
  destruct (Z.leb_spec utf8.RuneSelf (code d)).
  - apply Z.ltb_lt in H1. lia.
  - rewrite <- (length_app m [d]) at 1. cbn [length].
    replace (length m + 1)%nat with (length (m ++ [d]))
      by (rewrite length_app; reflexivity).
    apply firstn_all.
Qed.

(** A string of ASCII bytes without white space is left as it is. *)
Lemma TrimSpace_plain s :
  Forall (fun c => plain c = true) s -> strings.TrimSpace s = s.
Proof.
  intros H. destruct s as [|c t]; [reflexivity|].
  unfold strings.TrimSpace, strings.TrimFunc.
  rewrite TrimLeftFunc_plain by now inversion H.
  destruct (exists_last (l := c :: t)) as [m [d E]]; [discriminate|].
  rewrite E in *. apply TrimRightFunc_plain.
  apply Forall_app in H as [_ H]. now inversion H.
Qed.

Lemma indexFunc_loop_WhiteSpace s :
  WhiteSpace s ->
  forall fuel i, strings.indexFunc_loop fuel unicode.IsSpace false s i = None.
Proof.
  induction 1 as [|s r size Hne Hd Hs _ IH]; intros [|fuel] i;
    try reflexivity.
  cbn [strings.indexFunc_loop].
  destruct s as [|c t]; [congruence|].
  rewrite Hd, Hs. cbn [Bool.eqb]. apply IH.
Qed.

(** A string of white space is trimmed to the empty string. *)
Lemma TrimSpace_WhiteSpace s : WhiteSpace s -> strings.TrimSpace s = [].
Proof.
  intros H. unfold strings.TrimSpace, strings.TrimFunc.
  unfold strings.TrimLeftFunc, strings.indexFunc.
  now rewrite indexFunc_loop_WhiteSpace.
Qed.

(** White space of ASCII is white space. *)
Lemma WhiteSpace_ascii s :
  Forall (fun c => In c [" "%char; "009"%char; "010"%char; "011"%char;
                         "012"%char; "013"%char]) s ->
  WhiteSpace s.
Proof.
  induction 1 as [|c t Hc _ IH]; [constructor|].
  apply WhiteSpace_rune with (r := code c) (size := 1%nat);
    [discriminate| | |exact IH];
    simpl in Hc; repeat (destruct Hc as [<- | Hc]; [reflexivity|]);
    contradiction.
Qed.

(* ------------------------------------------------------------------ *)
(** ** Splitting *)

Lemma Split_none s sep : ~ In sep s -> strings.Split s sep = [s].
Proof.
  induction s as [|c t IH]; intros H; simpl; [reflexivity|].
  destruct (Ascii.eqb_spec c sep) as [->|Hc].
  - exfalso. apply H. now left.
  - rewrite IH; [reflexivity|]. intros Hin. apply H. now right.
Qed.

Lemma Split_first a r sep :
  ~ In sep a ->
  strings.Split (a ++ sep :: r) sep = a :: strings.Split r sep.
Proof.
  induction a as [|c t IH]; intros H; simpl.
  - now rewrite Ascii.eqb_refl.
  - destruct (Ascii.eqb_spec c sep) as [->|Hc].
    + exfalso. apply H. now left.
    + rewrite IH; [reflexivity|]. intros Hin. apply H. now right.
Qed.

Lemma digit_plain c : big.is_digit c = true -> plain c = true.
Proof.
  unfold big.is_digit, plain, unicode.IsSpace, utf8.RuneSelf.
  intros H. apply andb_true_iff in H as [H1 H2].
  apply Z.leb_le in H1, H2.
  repeat match goal with
         | |- context [?a <=? ?b] => destruct (Z.leb_spec a b); try lia
         | |- context [?a <? ?b] => destruct (Z.ltb_spec a b); try lia
         | |- context [?a =? ?b] => destruct (Z.eqb_spec a b); try lia
         end; reflexivity.
Qed.

Lemma digit_not_dot c : big.is_digit c = true -> c <> "."%char.
Proof. intros H ->. discriminate H. Qed.

Lemma digits_no_dot ds :
  Forall (fun c => big.is_digit c = true) ds -> ~ In "."%char ds.
Proof.
  intros H Hin. rewrite Forall_forall in H.
  apply (digit_not_dot _ (H _ Hin)). reflexivity.
Qed.

(* ------------------------------------------------------------------ *)
(** ** The results of the two functions *)

Lemma ToIntByPrecise_value_eq value precise :
  ToIntByPrecise_value value precise =
  Some (fst (big.setFromScanner 0 (digitString value))
        * 10 ^ effectivePrecision value precise).
Proof.
  unfold ToIntByPrecise_value. rewrite ToIntByPrecise_run. reflexivity.
Qed.

Lemma ToStringByPrecise_value_eq v precise :
  ToStringByPrecise_value (Some v) precise =
  Some (big.Text (v / 10 ^ ToStringByPrecise_precise precise)).
Proof.
  unfold ToStringByPrecise_value.
  now rewrite (ToStringByPrecise_run 0 v precise [v] eq_refl).
Qed.

Lemma parts_no_dot value :
  ~ In "."%char value ->
  ToIntByPrecise_parts value = [strings.TrimSpace value; bytes "0"].
Proof.
  intros H. unfold ToIntByPrecise_parts.
  rewrite Split_none; [reflexivity|].
  intros Hin. apply H. now apply In_TrimSpace.
Qed.

Lemma parts_dot value a r :
  strings.TrimSpace value = a ++ "."%char :: r ->
  ~ In "."%char a ->
  ToIntByPrecise_parts value = a :: strings.Split r ".".
Proof.
  intros E H. unfold ToIntByPrecise_parts.
  rewrite E, Split_first by assumption.
  destruct (Split_cons r ".") as [p [ps ->]]. reflexivity.
Qed.

Lemma precise_in_range precise part1 :
  in_int64 (precise - len part1) ->
  ToIntByPrecise_precise precise part1 = Z.max 0 (precise - len part1).
Proof.
  intros H. unfold ToIntByPrecise_precise. rewrite wrap64_id by assumption.
  destruct (Z.ltb_spec (precise - len part1) 0); lia.
Qed.

(** The exponent [ToStringByPrecise] divides by: 0 for a precision that is
    not negative, the opposite of a negative precision. *)
Lemma ToStringByPrecise_precise_nonneg_arg precise :
  0 <= precise <= max_int64 -> ToStringByPrecise_precise precise = 0.
Proof.
  intros H. unfold ToStringByPrecise_precise.
  rewrite wrap64_id by (unfold in_int64, min_int64, max_int64 in *; lia).
  destruct (Z.ltb_spec (- precise) 0); lia.
Qed.

Lemma ToStringByPrecise_precise_neg_arg precise :
  min_int64 < precise < 0 -> ToStringByPrecise_precise precise = - precise.
Proof.
  intros H. unfold ToStringByPrecise_precise.
  rewrite wrap64_id by (unfold in_int64, min_int64, max_int64 in *; lia).
  destruct (Z.ltb_spec (- precise) 0); lia.
Qed.

(** [ToIntByPrecise] on the decimal string of an integer [q >= 0]: the
    digit ["0"] is appended and the precision lowered by one, so that [q]
    is scaled by [10^p] for [p >= 1] and by 10 for [p = 0]. *)
Lemma ToIntByPrecise_of_Text q p :
  0 <= q -> 0 <= p <= max_int64 ->
  ToIntByPrecise_value (big.Text q) p = Some (q * 10 ^ Z.max 1 p).
Proof.
  intros Hq Hp.
  rewrite ToIntByPrecise_value_eq.
  unfold effectivePrecision, digitString, intPart, fracPart.
  rewrite Text_nonneg by assumption.
  pose proof (utoa_digits q Hq) as Hd.
  rewrite parts_no_dot by now apply digits_no_dot.
  rewrite TrimSpace_plain
    by (eapply Forall_impl; [|exact Hd]; apply digit_plain).
  cbn [nth].
  rewrite setFromScanner_digits.
  - cbn [fst]. change (bytes "0") with ["0"%char].
    rewrite digits_value_app, utoa_value by assumption.
    rewrite precise_in_range
      by (unfold in_int64, min_int64, max_int64, len in *; simpl; lia).
    change (len ["0"%char]) with 1.
    change (big.digit_val "0") with 0.
    f_equal.
    replace (Z.max 1 p) with (1 + Z.max 0 (p - 1)) by lia.
    rewrite Z.pow_add_r by lia. change (10 ^ 1) with 10. ring.
  - intros E. apply app_eq_nil in E as [_ E]. discriminate E.
  - apply Forall_app. split; [assumption|]. repeat constructor.
Qed.

(** What the round trip of the code is: the sign flip of
    [ToStringByPrecise] leaves [n] as it is and [ToIntByPrecise] scales it
    up. *)
Lemma roundtrip_eq n p :
  0 <= n -> 0 <= p <= max_int64 ->
  roundtrip n p = Some (n * 10 ^ Z.max 1 p).
Proof.
  intros Hn Hp. unfold roundtrip.
  rewrite ToStringByPrecise_value_eq.
  rewrite ToStringByPrecise_precise_nonneg_arg by assumption.
  change (10 ^ 0) with 1. rewrite Z.div_1_r.
  now apply ToIntByPrecise_of_Text.
Qed.

(** The two calls of [main]: 0.01 WBNB at 18 decimals and 1 USDT at 2. *)
Example ToIntByPrecise_amountIn :
  ToIntByPrecise_value "0.01" 18 = Some 10000000000000000.
Proof. vm_compute. reflexivity. Qed.

Example ToIntByPrecise_amountOutMin :
  ToIntByPrecise_value "1" 2 = Some 100.
Proof. vm_compute. reflexivity. Qed.

(** White space around the amount is trimmed, also when it is not ASCII
    (here a no-break space, U+00A0, at the end). *)
Example ToIntByPrecise_trims :
  ToIntByPrecise_value
    (bytes " 12.5 " ++ [ascii_of_nat 194; ascii_of_nat 160]) 3
  = Some 12500.
Proof. vm_compute. reflexivity. Qed.

(* ------------------------------------------------------------------ *)
(** ** The claims *)

(** C1 (the code departs from it): for a precision [p >= 0]
    [ToStringByPrecise] should return the decimal string of the floor of
    [scaled / 10^p].  The code negates the precision before it clamps it at
    0, so that the exponent is 0 and the divisor 1 for every such [p]: the
    result is the decimal string of [scaled] itself.  For
    1500000000000000000 and for 2999999999999999999 with precision 18 it
    returns all the digits of the argument, not "1" and "2". *)
Theorem ToStringByPrecise_positive_precision_unscaled (scaled p : Z) :
  0 <= p <= max_int64 ->
  ToStringByPrecise_value (Some scaled) p = Some (big.Text scaled) /\
  ToStringByPrecise_value (Some 1500000000000000000) 18
  = Some (bytes "1500000000000000000") /\
  ToStringByPrecise_value (Some 2999999999999999999) 18
  = Some (bytes "2999999999999999999").
Proof.
  intros Hp. split; [|split; vm_compute; reflexivity].
  rewrite ToStringByPrecise_value_eq.
  rewrite ToStringByPrecise_precise_nonneg_arg by assumption.
  change (10 ^ 0) with 1. now rewrite Z.div_1_r.
Qed.

Lemma ToStringByPrecise_positive_precision_unscaled_witness :
  ToStringByPrecise_value (Some 1500000000000000000) 18
  = Some (big.Text 1500000000000000000) /\
  ToStringByPrecise_value (Some 1500000000000000000) 18
  = Some (bytes "1500000000000000000") /\
  ToStringByPrecise_value (Some 2999999999999999999) 18
  = Some (bytes "2999999999999999999").
Proof.
  apply (ToStringByPrecise_positive_precision_unscaled
           1500000000000000000 18).
  unfold max_int64. lia.
Defined.

(** C2 (the code departs from it): for a negative precision
    [ToStringByPrecise] should divide by [10^0] and return the digits of
    [x] unchanged.  The code negates the precision first, so that a
    negative precision [p] gives the exponent [-p]: the result is the
    decimal string of the floor of [x / 10^(-p)].  With precision -1, 15 is
    printed as "1" and 1234 as "123". *)
Theorem ToStringByPrecise_negative_precision_divides (x p : Z) :
  min_int64 < p < 0 ->
  ToStringByPrecise_value (Some x) p = Some (big.Text (x / 10 ^ (- p))) /\
  ToStringByPrecise_value (Some 15) (-1) = Some (bytes "1") /\
  ToStringByPrecise_value (Some 1234) (-1) = Some (bytes "123").
Proof.
  intros Hp. split; [|split; vm_compute; reflexivity].
  rewrite ToStringByPrecise_value_eq.
  now rewrite ToStringByPrecise_precise_neg_arg by assumption.
Qed.

Lemma ToStringByPrecise_negative_precision_divides_witness :
  ToStringByPrecise_value (Some 15) (-1)
  = Some (big.Text (15 / 10 ^ (- (-1)))) /\
  ToStringByPrecise_value (Some 15) (-1) = Some (bytes "1") /\
  ToStringByPrecise_value (Some 1234) (-1) = Some (bytes "123").
Proof.
  apply (ToStringByPrecise_negative_precision_divides 15 (-1)).
  unfold min_int64. lia.
Defined.

(** C3, as stated, fails: ["12a.3"] with precision 18 is not rejected.  The
    digit string is ["12a3"], [SetString] refuses it, and [ToIntByPrecise]
    returns [12 * 10^17]. *)
Lemma ToIntByPrecise_12a_3_returns :
  digitString "12a.3" = bytes "12a3" /\
  big.setFromScanner 0 (bytes "12a3") = (12, false) /\
  ToIntByPrecise_value "12a.3" 18 = Some 1200000000000000000 /\
  ToIntByPrecise_value "12a.3" 18 <> None.
Proof. repeat split; try (vm_compute; reflexivity). discriminate. Qed.

(** C3, amended: [ToIntByPrecise] has no error result and does not look at
    the one of [SetString].  When the digit string is a run of digits [pre]
    followed by a byte [c] that is no digit (and no sign at its start),
    [SetString] refuses the string, and [ToIntByPrecise] returns the number
    [pre] denotes (zero when [pre] is empty) times ten to the effective
    precision. *)
Theorem ToIntByPrecise_junk_not_rejected
        (value : gostring) (precise : Z) (pre : gostring) (c : ascii)
        (rest : gostring) :
  digitString value = pre ++ c :: rest ->
  all_digits pre ->
  big.is_digit c = false ->
  (pre = [] -> Ascii.eqb c "-" = false /\ Ascii.eqb c "+" = false) ->
  snd (big.setFromScanner 0 (digitString value)) = false /\
  ToIntByPrecise_value value precise =
  Some (digits_value pre * 10 ^ effectivePrecision value precise).
Proof.
  unfold all_digits. intros E Hpre Hc Hsign.
  rewrite ToIntByPrecise_value_eq, E.
  now rewrite setFromScanner_junk.
Qed.

Lemma ToIntByPrecise_junk_not_rejected_witness :
  snd (big.setFromScanner 0 (digitString "12a.3")) = false /\
  ToIntByPrecise_value "12a.3" 18 =
  Some (digits_value "12" * 10 ^ effectivePrecision "12a.3" 18).
Proof.
  apply (ToIntByPrecise_junk_not_rejected "12a.3" 18 "12" "a" "3").
  - reflexivity.
  - repeat constructor.
  - reflexivity.
  - discriminate.
Defined.

(** C4, as stated, fails at precision 0: scaling 1 down and up again gives
    10, which is more than 1. *)
Lemma roundtrip_1_0_exceeds :
  ToStringByPrecise_value (Some 1) 0 = Some (bytes "1") /\
  roundtrip 1 0 = Some 10 /\ ~ (10 <= 1).
Proof. repeat split; try (vm_compute; reflexivity). lia. Qed.

(** C4, amended: for every [n >= 0] and precision [p >= 1],
    [ToIntByPrecise] applied with precision [p] to the decimal string of
    the floor of [n / 10^p] returns that quotient times [10^p], which is at
    most [n] and less than [10^p] below [n]. *)
Theorem ToIntByPrecise_of_floor_quotient n p :
  0 <= n -> 1 <= p <= max_int64 ->
  ToIntByPrecise_value (big.Text (n / 10 ^ p)) p = Some (n / 10 ^ p * 10 ^ p)
  /\ n / 10 ^ p * 10 ^ p <= n
  /\ n - n / 10 ^ p * 10 ^ p < 10 ^ p.
Proof.
  intros Hn Hp.
  pose proof (pow10_pos p ltac:(lia)) as Hpos.
  split.
  - rewrite ToIntByPrecise_of_Text by (try apply Z.div_pos; lia).
    now rewrite Z.max_r by lia.
  - pose proof (Z.div_mod n (10 ^ p) ltac:(lia)).
    pose proof (Z.mod_pos_bound n (10 ^ p) Hpos). lia.
Qed.

Lemma ToIntByPrecise_of_floor_quotient_witness :
  ToIntByPrecise_value (big.Text (2999 / 10 ^ 3)) 3
  = Some (2999 / 10 ^ 3 * 10 ^ 3)
  /\ 2999 / 10 ^ 3 * 10 ^ 3 <= 2999
  /\ 2999 - 2999 / 10 ^ 3 * 10 ^ 3 < 10 ^ 3.
Proof.
  apply (ToIntByPrecise_of_floor_quotient 2999 3).
  - lia.
  - unfold max_int64. lia.
Defined.

(** C5, as stated, fails: ["1.2.3"] is cut at both dots, the fractional
    part is ["2"] and not ["2.3"], the digit string ["12"] is accepted, and
    the digit after the second dot is dropped. *)
Lemma ToIntByPrecise_1_2_3_accepted :
  fracPart "1.2.3" = bytes "2" /\
  fracPart "1.2.3" <> bytes "2.3" /\
  big.setFromScanner 0 (digitString "1.2.3") = (12, true) /\
  ToIntByPrecise_value "1.2.3" 2 = Some 120.
Proof. repeat split; try (vm_compute; reflexivity). discriminate. Qed.

(** C5, amended: [ToIntByPrecise] cuts the trimmed input at every [.].  The
    integer part is the text before the first [.], the fractional part is
    the text between the first and the second [.], and what follows the
    second [.] has no effect on the result. *)
Theorem ToIntByPrecise_drops_after_second_dot
        (value a b t : gostring) (precise : Z) :
  ~ In "."%char a -> ~ In "."%char b ->
  strings.TrimSpace value = a ++ "."%char :: b ++ "."%char :: t ->
  intPart value = a /\
  fracPart value = b /\
  ToIntByPrecise_value value precise =
  Some (fst (big.setFromScanner 0 (a ++ b))
        * 10 ^ ToIntByPrecise_precise precise b).
Proof.
  intros Ha Hb E.
  assert (ToIntByPrecise_parts value = a :: b :: strings.Split t ".") as P.
  { rewrite (parts_dot value a (b ++ "."%char :: t)) by assumption.
    now rewrite Split_first. }
  rewrite ToIntByPrecise_value_eq.
  unfold effectivePrecision, digitString, intPart, fracPart.
  rewrite P. cbn [nth]. auto.
Qed.

Lemma ToIntByPrecise_drops_after_second_dot_witness :
  intPart "1.2.3" = bytes "1" /\
  fracPart "1.2.3" = bytes "2" /\
  ToIntByPrecise_value "1.2.3" 2 =
  Some (fst (big.setFromScanner 0 (bytes "1" ++ bytes "2"))
        * 10 ^ ToIntByPrecise_precise 2 "2").
Proof.
  apply (ToIntByPrecise_drops_after_second_dot "1.2.3" "1" "2" "3" 2).
  - simpl. intros [H|[]]. discriminate H.
  - simpl. intros [H|[]]. discriminate H.
  - reflexivity.
Defined.

(** C6: for an input without [.] the fractional part is the digit ["0"]:
    the digit string is the trimmed input followed by ["0"], and the
    precision is lowered by 1 (the length of that digit) before it is
    clamped at 0; [ToIntByPrecise("5", 2)] is 500. *)
Theorem ToIntByPrecise_no_dot_defaults_fraction
        (value : gostring) (precise : Z) :
  ~ In "."%char value ->
  fracPart value = bytes "0" /\
  digitString value = strings.TrimSpace value ++ bytes "0" /\
  effectivePrecision value precise
  = (if wrap64 (precise - 1) <? 0 then 0 else wrap64 (precise - 1)) /\
  (1 <= precise <= max_int64 ->
   effectivePrecision value precise = precise - 1) /\
  ToIntByPrecise_value value precise =
  Some (fst (big.setFromScanner 0 (strings.TrimSpace value ++ bytes "0"))
        * 10 ^ effectivePrecision value precise) /\
  ToIntByPrecise_value "5" 2 = Some 500.
Proof.
  intros H.
  assert (fracPart value = bytes "0") as F
    by (unfold fracPart; now rewrite parts_no_dot).
  assert (digitString value = strings.TrimSpace value ++ bytes "0") as D
    by (unfold digitString, intPart, fracPart; now rewrite parts_no_dot).
  repeat split; try assumption.
  - unfold effectivePrecision. now rewrite F.
  - intros Hp. unfold effectivePrecision. rewrite F.
    rewrite precise_in_range
      by (unfold in_int64, min_int64, max_int64, len in *; simpl; lia).
    change (len (bytes "0")) with 1. lia.
  - now rewrite ToIntByPrecise_value_eq, D.
Qed.

Lemma ToIntByPrecise_no_dot_defaults_fraction_witness :
  fracPart "5" = bytes "0" /\
  digitString "5" = strings.TrimSpace "5" ++ bytes "0" /\
  effectivePrecision "5" 2
  = (if wrap64 (2 - 1) <? 0 then 0 else wrap64 (2 - 1)) /\
  (1 <= 2 <= max_int64 -> effectivePrecision "5" 2 = 2 - 1) /\
  ToIntByPrecise_value "5" 2 =
  Some (fst (big.setFromScanner 0 (strings.TrimSpace "5" ++ bytes "0"))
        * 10 ^ effectivePrecision "5" 2) /\
  ToIntByPrecise_value "5" 2 = Some 500.
Proof.
  apply (ToIntByPrecise_no_dot_defaults_fraction "5" 2).
  simpl. intros [H|[]]. discriminate H.
Defined.

(** C7: for an input [ip.fp] of digits whose fractional part [fp] is longer
    than the precision, the effective precision is 0, no error is raised
    and the result is the number all the digits of [ip] and [fp] denote;
    [ToIntByPrecise("0.123", 2)] is 123. *)
Theorem ToIntByPrecise_excess_fraction_kept (ip fp : gostring) (precise : Z) :
  all_digits ip -> all_digits fp ->
  0 <= precise < len fp -> len fp <= max_int64 ->
  effectivePrecision (ip ++ "."%char :: fp) precise = 0 /\
  ToIntByPrecise_value (ip ++ "."%char :: fp) precise
  = Some (digits_value (ip ++ fp)) /\
  ToIntByPrecise_value "0.123" 2 = Some 123.
Proof.
  unfold all_digits. intros Hi Hf Hp Hlen.
  assert (ToIntByPrecise_parts (ip ++ "."%char :: fp) = [ip; fp]) as P.
  { rewrite (parts_dot _ ip fp).
    - now rewrite Split_none by now apply digits_no_dot.
    - apply TrimSpace_plain. apply Forall_app. split.
      + eapply Forall_impl; [|exact Hi]. apply digit_plain.
      + constructor; [reflexivity|].
        eapply Forall_impl; [|exact Hf]. apply digit_plain.
    - now apply digits_no_dot. }
  assert (effectivePrecision (ip ++ "."%char :: fp) precise = 0) as E.
  { unfold effectivePrecision, fracPart. rewrite P. cbn [nth].
    rewrite precise_in_range
      by (unfold in_int64, min_int64, max_int64 in *; lia).
    lia. }
  split; [assumption|]. split; [|reflexivity].
  rewrite ToIntByPrecise_value_eq, E.
  unfold digitString, intPart, fracPart. rewrite P. cbn [nth].
  rewrite setFromScanner_digits.
  - cbn [fst]. f_equal. lia.
  - intros N. apply app_eq_nil in N as [_ ->]. unfold len in Hp.
    simpl in Hp. lia.
  - now apply Forall_app.
Qed.

Lemma ToIntByPrecise_excess_fraction_kept_witness :
  effectivePrecision (bytes "0" ++ "."%char :: bytes "123") 2 = 0 /\
  ToIntByPrecise_value (bytes "0" ++ "."%char :: bytes "123") 2
  = Some (digits_value (bytes "0" ++ bytes "123")) /\
  ToIntByPrecise_value "0.123" 2 = Some 123.
Proof.
  apply (ToIntByPrecise_excess_fraction_kept "0" "123" 2).
  - repeat constructor.
  - repeat constructor.
  - unfold len. simpl. lia.
  - unfold len, max_int64. simpl. lia.
Defined.

(** C8: for every precision, [ToStringByPrecise] of a nil pointer returns
    the string ["0"]; it does not panic and leaves the store as it is. *)
Theorem ToStringByPrecise_nil (precise : Z) (h : heap) :
  ToStringByPrecise nil precise h = Some (bytes "0", h) /\
  ToStringByPrecise_value None precise = Some (bytes "0").
Proof. split; reflexivity. Qed.

(** C9: [ToStringByPrecise] works on a copy.  Called on a pointer to an
    integer [v], it returns a string, the integer it was given is still [v]
    afterwards, and so is every other cell the caller had. *)
Theorem ToStringByPrecise_preserves_argument
        (h : heap) (l : nat) (v precise : Z) :
  nth_error h l = Some v ->
  exists s h',
    ToStringByPrecise (Some l) precise h = Some (s, h') /\
    deref h' (Some l) = Some v /\
    forall l', (l' < length h)%nat -> nth_error h' l' = nth_error h l'.
Proof.
  intros Hl.
  pose proof (ToStringByPrecise_run l v precise h Hl) as R. cbv zeta in R.
  eexists. eexists. split; [exact R|].
  split.
  - unfold deref. rewrite nth_error_app1; [assumption|].
    apply nth_error_Some. congruence.
  - intros l' Hl'. now apply nth_error_app1.
Qed.

Lemma ToStringByPrecise_preserves_argument_witness :
  exists s h',
    ToStringByPrecise (Some 1%nat) (-1) [5; 1234; 7] = Some (s, h') /\
    deref h' (Some 1%nat) = Some 1234 /\
    forall l', (l' < length [5; 1234; 7])%nat ->
               nth_error h' l' = nth_error [5; 1234; 7] l'.
Proof.
  apply (ToStringByPrecise_preserves_argument [5; 1234; 7] 1 1234 (-1)).
  reflexivity.
Defined.

(** C10: for every precision, [ToIntByPrecise] of the empty string or of a
    string of white space returns 0 and does not panic: the trimmed input
    is empty, the digit string is ["0"], and zero scaled is zero. *)
Theorem ToIntByPrecise_blank_is_zero (value : gostring) (precise : Z) :
  WhiteSpace value ->
  intPart value = [] /\
  digitString value = bytes "0" /\
  ToIntByPrecise_value value precise = Some 0.
Proof.
  intros H. apply TrimSpace_WhiteSpace in H.
  assert (ToIntByPrecise_parts value = [[]; bytes "0"]) as P
    by (unfold ToIntByPrecise_parts; now rewrite H).
  assert (digitString value = bytes "0") as D
    by (unfold digitString, intPart, fracPart; now rewrite P).
  split; [unfold intPart; now rewrite P|]. split; [assumption|].
  rewrite ToIntByPrecise_value_eq, D. reflexivity.
Qed.

Lemma ToIntByPrecise_blank_is_zero_witness :
  (intPart "" = [] /\ digitString "" = bytes "0" /\
   ToIntByPrecise_value "" 18 = Some 0) /\
  (intPart "   " = [] /\ digitString "   " = bytes "0" /\
   ToIntByPrecise_value "   " 18 = Some 0).
Proof.
  split.
  - apply (ToIntByPrecise_blank_is_zero "" 18). constructor.
  - apply (ToIntByPrecise_blank_is_zero "   " 18).
    apply WhiteSpace_ascii. repeat constructor.
Defined.

(* ------------------------------------------------------------------ *)
(** ** Further properties of [ToIntByPrecise] *)

Lemma digits_value_app_all a b :
  digits_value (a ++ b) = digits_value a * 10 ^ len b + digits_value b.
Proof.
  induction b as [|c b IH] using rev_ind.
  - rewrite app_nil_r. unfold len. simpl. change (digits_value []) with 0.
    lia.
  - rewrite app_assoc, !digits_value_app, IH.
    unfold len. rewrite length_app. cbn [length].
    rewrite Nat2Z.inj_add, Z.pow_add_r by lia. change (10 ^ Z.of_nat 1) with 10.
    ring.
Qed.

Lemma digits_value_nonneg ds : all_digits ds -> 0 <= digits_value ds.
Proof.
  unfold all_digits. induction ds as [|c ds IH] using rev_ind; intros H.
  - unfold digits_value. simpl. lia.
  - apply Forall_app in H as [H1 H2]. inversion H2 as [|? ? Hc _]; subst.
    rewrite digits_value_app. specialize (IH H1).
    unfold big.is_digit in Hc. apply andb_true_iff in Hc as [Hc _].
    apply Z.leb_le in Hc. unfold big.digit_val. lia.
Qed.

(** On digits alone the receiver is left with the number they denote, also
    when there is none of them and the string is refused. *)
Lemma setFromScanner_digits_fst ds :
  all_digits ds -> fst (big.setFromScanner 0 ds) = digits_value ds.
Proof.
  intros H. destruct ds as [|c t]; [reflexivity|].
  now rewrite setFromScanner_digits.
Qed.

Lemma setFromScanner_minus ds :
  all_digits ds ->
  fst (big.setFromScanner 0 ("-"%char :: ds)) = - digits_value ds.
Proof.
  unfold all_digits. intros H. unfold big.setFromScanner. cbn [big.scanSign].
  change (Ascii.eqb "-" "-") with true. cbv iota.
  replace (big.scan_digits ds 0 0)
    with (big.scan_digits (ds ++ []) 0 0) by now rewrite app_nil_r.
  rewrite scan_digits_app by assumption. cbn [big.scan_digits Nat.add].
  fold (digits_value ds).
  destruct ds as [|c t]; [reflexivity|]. reflexivity.
Qed.

Lemma setFromScanner_plus ds :
  all_digits ds ->
  fst (big.setFromScanner 0 ("+"%char :: ds)) = digits_value ds.
Proof.
  unfold all_digits. intros H. unfold big.setFromScanner. cbn [big.scanSign].
  change (Ascii.eqb "+" "-") with false.
  change (Ascii.eqb "+" "+") with true. cbv iota.
  replace (big.scan_digits ds 0 0)
    with (big.scan_digits (ds ++ []) 0 0) by now rewrite app_nil_r.
  rewrite scan_digits_app by assumption. cbn [big.scan_digits Nat.add].
  fold (digits_value ds).
  destruct ds as [|c t]; [reflexivity|]. reflexivity.
Qed.

Lemma digits_plain ds : all_digits ds -> Forall (fun c => plain c = true) ds.
Proof. intros H. eapply Forall_impl; [|exact H]. apply digit_plain. Qed.

(** The parts of a string of bytes that are no white space, cut at its
    only dot. *)
Lemma parts_one_dot a b :
  Forall (fun c => plain c = true) a -> Forall (fun c => plain c = true) b ->
  ~ In "."%char a -> ~ In "."%char b ->
  ToIntByPrecise_parts (a ++ "."%char :: b) = [a; b].
Proof.
  intros Pa Pb Ha Hb.
  rewrite (parts_dot _ a b).
  - now rewrite Split_none.
  - apply TrimSpace_plain. apply Forall_app. split; [assumption|].
    constructor; [reflexivity|assumption].
  - assumption.
Qed.

(** X1: [ToIntByPrecise] never panics, whatever the string, the precision
    and the store.  It returns a pointer that is not nil, to a cell the
    caller did not have; the cells the caller had keep their values, and
    the integer in the new cell does not depend on the store. *)
Theorem ToIntByPrecise_fresh_result
        (value : gostring) (precise : Z) (h : heap) :
  exists h',
    ToIntByPrecise value precise h = Some (Some (length h), h') /\
    nth_error h (length h) = None /\
    (forall l, (l < length h)%nat -> nth_error h' l = nth_error h l) /\
    deref h' (Some (length h)) = ToIntByPrecise_value value precise.
Proof.
  pose proof (ToIntByPrecise_run value precise h) as R. cbv zeta in R.
  eexists. split; [exact R|]. split; [|split].
  - apply nth_error_None. lia.
  - intros l Hl. now apply nth_error_app1.
  - rewrite ToIntByPrecise_value_eq. unfold deref.
    rewrite nth_error_app2 by lia. now rewrite Nat.sub_diag.
Qed.

(** X2: the conversion proper.  For an integer part [ip] and a fractional
    part [fp] of digits, with no more fractional digits than the precision
    [p], the result is the amount [ip.fp] times [10^p]: [ip] scaled by
    [10^p] plus [fp] scaled by what is left of [p].  Either part may be
    empty and counts as zero. *)
Theorem ToIntByPrecise_decimal (ip fp : gostring) (p : Z) :
  all_digits ip -> all_digits fp ->
  len fp <= p <= max_int64 ->
  ToIntByPrecise_value (ip ++ "."%char :: fp) p
  = Some (digits_value ip * 10 ^ p + digits_value fp * 10 ^ (p - len fp)).
Proof.
  intros Hi Hf Hp.
  assert (0 <= len fp) as Hl by (unfold len; lia).
  rewrite ToIntByPrecise_value_eq.
  unfold effectivePrecision, digitString, intPart, fracPart.
  rewrite parts_one_dot
    by (try apply digits_plain; try apply digits_no_dot; assumption).
  cbn [nth].
  rewrite setFromScanner_digits_fst
    by (unfold all_digits in *; now apply Forall_app).
  rewrite precise_in_range
    by (unfold in_int64, min_int64, max_int64 in *; lia).
  rewrite Z.max_r by lia. rewrite digits_value_app_all. f_equal.
  replace p with (len fp + (p - len fp)) at 2 by lia.
  rewrite Z.pow_add_r by lia. ring.
Qed.

Lemma ToIntByPrecise_decimal_witness :
  ToIntByPrecise_value (bytes "12" ++ "."%char :: bytes "345") 6
  = Some (digits_value "12" * 10 ^ 6
          + digits_value "345" * 10 ^ (6 - len "345")).
Proof.
  apply (ToIntByPrecise_decimal "12" "345" 6).
  - repeat constructor.
  - repeat constructor.
  - unfold len, max_int64. simpl. lia.
Defined.

(** A string of digits without a dot: the digit ["0"] is appended and takes
    one decimal of the precision. *)
Lemma ToIntByPrecise_digits (ds : gostring) (p : Z) :
  all_digits ds -> 0 <= p <= max_int64 ->
  ToIntByPrecise_value ds p = Some (digits_value ds * 10 ^ Z.max 1 p).
Proof.
  intros Hd Hp.
  rewrite ToIntByPrecise_value_eq.
  unfold effectivePrecision, digitString, intPart, fracPart.
  rewrite parts_no_dot by now apply digits_no_dot.
  rewrite TrimSpace_plain by now apply digits_plain.
  cbn [nth].
  rewrite setFromScanner_digits_fst
    by (unfold all_digits in *; apply Forall_app; split;
        [assumption|repeat constructor]).
  change (bytes "0") with ["0"%char].
  rewrite digits_value_app.
  rewrite precise_in_range
    by (unfold in_int64, min_int64, max_int64, len in *; simpl; lia).
  change (len ["0"%char]) with 1. change (big.digit_val "0") with 0.
  f_equal.
  replace (Z.max 1 p) with (1 + Z.max 0 (p - 1)) by lia.
  rewrite Z.pow_add_r by lia. change (10 ^ 1) with 10. ring.
Qed.

(** X3: an amount written without a dot.  For a string of digits and a
    precision [p >= 1] the result is the number times [10^p]; at precision
    0 the appended digit stays in the number and the result is the number
    times 10. *)
Theorem ToIntByPrecise_integer (ds : gostring) (p : Z) :
  all_digits ds -> 0 <= p <= max_int64 ->
  ToIntByPrecise_value ds p = Some (digits_value ds * 10 ^ Z.max 1 p).
Proof. intros Hd Hp. now apply ToIntByPrecise_digits. Qed.

Lemma ToIntByPrecise_integer_witness :
  ToIntByPrecise_value "42" 0 = Some (digits_value "42" * 10 ^ Z.max 1 0) /\
  ToIntByPrecise_value "42" 6 = Some (digits_value "42" * 10 ^ Z.max 1 6).
Proof.
  split.
  - apply (ToIntByPrecise_integer "42" 0);
      [repeat constructor|unfold max_int64; lia].
  - apply (ToIntByPrecise_integer "42" 6);
      [repeat constructor|unfold max_int64; lia].
Defined.

(** X4: signs.  A [-] in front of the digits negates the result and a [+]
    leaves it as it is, for every precision: the result of
    [ToIntByPrecise] can be negative. *)
Theorem ToIntByPrecise_signed (ip fp : gostring) (p : Z) :
  all_digits ip -> all_digits fp ->
  ToIntByPrecise_value ("-"%char :: ip ++ "."%char :: fp) p
  = option_map Z.opp (ToIntByPrecise_value (ip ++ "."%char :: fp) p) /\
  ToIntByPrecise_value ("+"%char :: ip ++ "."%char :: fp) p
  = ToIntByPrecise_value (ip ++ "."%char :: fp) p.
Proof.
  intros Hi Hf.
  pose proof (digits_plain _ Hi) as Pi. pose proof (digits_plain _ Hf) as Pf.
  pose proof (digits_no_dot _ Hi) as Di. pose proof (digits_no_dot _ Hf) as Df.
  assert (all_digits (ip ++ fp)) as Hif
    by (unfold all_digits in *; now apply Forall_app).
  rewrite !app_comm_cons, !ToIntByPrecise_value_eq.
  unfold effectivePrecision, digitString, intPart, fracPart.
  rewrite (parts_one_dot ip fp) by assumption.
  rewrite (parts_one_dot ("-"%char :: ip) fp);
    [|now constructor|assumption|
     intros [E|E]; [discriminate E|now apply Di]|assumption].
  rewrite (parts_one_dot ("+"%char :: ip) fp);
    [|now constructor|assumption|
     intros [E|E]; [discriminate E|now apply Di]|assumption].
  cbn [nth]. rewrite <- !app_comm_cons.
  rewrite setFromScanner_minus, setFromScanner_plus,
    setFromScanner_digits_fst by assumption.
  cbn [option_map]. split; [f_equal; ring|reflexivity].
Qed.

Lemma ToIntByPrecise_signed_witness :
  ToIntByPrecise_value ("-"%char :: bytes "1" ++ "."%char :: bytes "5") 2
  = option_map Z.opp
      (ToIntByPrecise_value (bytes "1" ++ "."%char :: bytes "5") 2) /\
  ToIntByPrecise_value ("+"%char :: bytes "1" ++ "."%char :: bytes "5") 2
  = ToIntByPrecise_value (bytes "1" ++ "."%char :: bytes "5") 2.
Proof.
  apply (ToIntByPrecise_signed "1" "5" 2); repeat constructor.
Defined.

(** X5: once the precision covers the fractional part, one more decimal
    of precision multiplies the result by ten, for every input. *)
Theorem ToIntByPrecise_next_precision (value : gostring) (p : Z) :
  len (fracPart value) <= p < max_int64 ->
  ToIntByPrecise_value value (p + 1)
  = option_map (Z.mul 10) (ToIntByPrecise_value value p).
Proof.
  intros Hp.
  assert (0 <= len (fracPart value)) as Hl by (unfold len; lia).
  rewrite !ToIntByPrecise_value_eq. unfold effectivePrecision.
  rewrite !precise_in_range
    by (unfold in_int64, min_int64, max_int64 in *; lia).
  rewrite !Z.max_r by lia. cbn [option_map]. f_equal.
  replace (p + 1 - len (fracPart value))
    with (1 + (p - len (fracPart value))) by lia.
  rewrite Z.pow_add_r by lia. change (10 ^ 1) with 10. ring.
Qed.

Lemma ToIntByPrecise_next_precision_witness :
  ToIntByPrecise_value "0.01" (17 + 1)
  = option_map (Z.mul 10) (ToIntByPrecise_value "0.01" 17).
Proof.
  apply (ToIntByPrecise_next_precision "0.01" 17).
  unfold max_int64. vm_compute. split; [discriminate|reflexivity].
Defined.

(** X6: no digit is ever cut off.  Every precision from 0 up to the number
    of fractional digits gives the same result as precision 0: the number
    all the digits denote. *)
Theorem ToIntByPrecise_never_truncates (value : gostring) (p : Z) :
  0 <= p <= len (fracPart value) -> len (fracPart value) <= max_int64 ->
  ToIntByPrecise_value value p = ToIntByPrecise_value value 0 /\
  ToIntByPrecise_value value p
  = Some (fst (big.setFromScanner 0 (digitString value))).
Proof.
  intros Hp Hl.
  rewrite !ToIntByPrecise_value_eq. unfold effectivePrecision.
  rewrite !precise_in_range
    by (unfold in_int64, min_int64, max_int64 in *; lia).
  rewrite !Z.max_l by lia. change (10 ^ 0) with 1.
  rewrite Z.mul_1_r. split; reflexivity.
Qed.

Lemma ToIntByPrecise_never_truncates_witness :
  ToIntByPrecise_value "1.2345" 2 = ToIntByPrecise_value "1.2345" 0 /\
  ToIntByPrecise_value "1.2345" 2
  = Some (fst (big.setFromScanner 0 (digitString "1.2345"))).
Proof.
  apply (ToIntByPrecise_never_truncates "1.2345" 2).
  - vm_compute. split; discriminate.
  - vm_compute. discriminate.
Defined.

Lemma scan_digits_nonneg s acc count :
  0 <= acc -> 0 <= fst (fst (big.scan_digits s acc count)).
Proof.
  revert acc count. induction s as [|c t IH]; intros acc count H; simpl;
    [assumption|].
  destruct (big.is_digit c) eqn:Hc; [|assumption].
  apply IH. unfold big.is_digit in Hc. apply andb_true_iff in Hc as [Hc _].
  apply Z.leb_le in Hc. unfold big.digit_val. lia.
Qed.

(** X7: the result is negative only for a digit string that starts with
    [-]: for every other input, well-formed or not, and every precision
    the result is zero or more. *)
Theorem ToIntByPrecise_nonneg (value : gostring) (p : Z) :
  hd_error (digitString value) <> Some "-"%char ->
  exists z, ToIntByPrecise_value value p = Some z /\ 0 <= z.
Proof.
  intros H. rewrite ToIntByPrecise_value_eq. eexists. split; [reflexivity|].
  apply Z.mul_nonneg_nonneg.
  - unfold big.setFromScanner, big.scanSign.
    destruct (digitString value) as [|c t]; [simpl; lia|].
    destruct (Ascii.eqb_spec c "-") as [->|_]; [now elim H|].
    assert (forall r,
               0 <= fst (let '(abs, count, rest) := big.scan_digits r 0 0 in
                         if (count =? 0)%nat then (abs, false)
                         else match rest with
                              | [] => (abs, true)
                              | _ :: _ => (abs, false)
                              end)) as G.
    { intros r. pose proof (scan_digits_nonneg r 0 0 ltac:(lia)) as N.
      destruct (big.scan_digits r 0 0) as [[abs count] rest]. simpl in N.
      destruct (count =? 0)%nat; [assumption|]. now destruct rest. }
    destruct (Ascii.eqb c "+"); apply G.
  - apply Z.pow_nonneg. lia.
Qed.

Lemma ToIntByPrecise_nonneg_witness :
  exists z, ToIntByPrecise_value "12a.3" 18 = Some z /\ 0 <= z.
Proof.
  apply (ToIntByPrecise_nonneg "12a.3" 18). vm_compute. discriminate.
Defined.

(* ------------------------------------------------------------------ *)
(** ** White space around the amount *)

Lemma firstn_exact (l t : gostring) n :
  length l = n -> firstn n (l ++ t) = l.
Proof.
  intros <-. rewrite firstn_app, Nat.sub_diag, firstn_all. simpl.
  apply app_nil_r.
Qed.

Lemma ascii_space_decode c t :
  In c [" "%char; "009"%char; "010"%char; "011"%char; "012"%char;
        "013"%char] ->
  utf8.DecodeRune (c :: t) = (code c, 1%nat) /\
  unicode.IsSpace (code c) = true /\
  (code c <? utf8.RuneSelf) = true.
Proof.
  simpl. intros H.
  repeat (destruct H as [<- | H]; [repeat split; reflexivity|]).
  contradiction.
Qed.

Lemma indexFunc_loop_shift f truth fuel s i :
  strings.indexFunc_loop fuel f truth s i
  = option_map (Nat.add i) (strings.indexFunc_loop fuel f truth s 0).
Proof.
  revert s i. induction fuel as [|fuel IH]; intros s i; [reflexivity|].
  cbn [strings.indexFunc_loop]. destruct s as [|c t]; [reflexivity|].
  destruct (utf8.DecodeRune (c :: t)) as [r size].
  destruct (Bool.eqb (f r) truth).
  - simpl. f_equal. lia.
  - rewrite IH. rewrite (IH _ (0 + size)%nat).
    destruct (strings.indexFunc_loop fuel f truth (skipn size (c :: t)) 0);
      simpl; [f_equal; lia|reflexivity].
Qed.

Lemma TrimLeftFunc_space c t :
  In c [" "%char; "009"%char; "010"%char; "011"%char; "012"%char;
        "013"%char] ->
  strings.TrimLeftFunc (c :: t) unicode.IsSpace
  = strings.TrimLeftFunc t unicode.IsSpace.
Proof.
  intros H. destruct (ascii_space_decode c t H) as [Hd [Hs _]].
  unfold strings.TrimLeftFunc, strings.indexFunc.
  cbn [length strings.indexFunc_loop]. rewrite Hd, Hs. cbn [Bool.eqb].
  rewrite indexFunc_loop_shift. cbn [skipn].
  destruct (strings.indexFunc_loop (length t) unicode.IsSpace false t 0);
    reflexivity.
Qed.

Lemma DecodeLastRune_ascii m d :
  (code d <? utf8.RuneSelf) = true ->
  utf8.DecodeLastRune (m ++ [d]) = (code d, 1%nat).
Proof.
  intros H1. unfold utf8.DecodeLastRune, len.
  rewrite length_app. cbn [length].
  destruct (Z.eqb_spec (Z.of_nat (length m + 1)) 0); [lia|].
  replace (Z.of_nat (length m + 1) - 1) with (Z.of_nat (length m)) by lia.
  now rewrite byte_at_last, H1.
Qed.

(** Walking back over trailing ASCII white space stops at the last byte
    before it. *)
Lemma lastIndexFunc_loop_blank m d ws :
  plain d = true -> ascii_blank ws ->
  forall fuel tail,
    (length ws < fuel)%nat ->
    strings.lastIndexFunc_loop fuel unicode.IsSpace false
      (m ++ d :: ws ++ tail) (length m + 1 + length ws)
    = Some (length m).
Proof.
  intros Hd Hws. unfold ascii_blank in Hws.
  induction ws as [|c ws IH] using rev_ind; intros fuel tail Hf.
  - destruct fuel as [|fuel]; [simpl in Hf; lia|].
    cbn [strings.lastIndexFunc_loop length app].
    destruct (Nat.ltb_spec 0 (length m + 1 + 0)); [|lia].
    replace (m ++ d :: tail) with ((m ++ [d]) ++ tail)
      by (rewrite <- app_assoc; reflexivity).
    rewrite firstn_exact by (rewrite length_app; simpl; lia).
    rewrite DecodeLastRune_plain by assumption.
    unfold plain in Hd. apply andb_true_iff in Hd as [_ Hd].
    apply negb_true_iff in Hd. rewrite Hd. cbn [Bool.eqb].
    f_equal. lia.
  - apply Forall_app in Hws as [Hws Hc]. inversion Hc as [|? ? Hc' _]; subst.
    destruct (ascii_space_decode c [] Hc') as [_ [Hs Ha]].
    rewrite length_app in *. cbn [length] in *.
    destruct fuel as [|fuel]; [lia|].
    cbn [strings.lastIndexFunc_loop].
    destruct (Nat.ltb_spec 0 (length m + 1 + (length ws + 1))); [|lia].
    replace (m ++ d :: (ws ++ [c]) ++ tail)
      with (((m ++ d :: ws) ++ [c]) ++ tail)
      by (rewrite <- ?app_assoc; simpl; rewrite <- ?app_assoc; reflexivity).
    rewrite firstn_exact by (rewrite !length_app; simpl; lia).
    rewrite DecodeLastRune_ascii by assumption.
    rewrite Hs. cbn [Bool.eqb].
    replace (length m + 1 + (length ws + 1) - 1)%nat
      with (length m + 1 + length ws)%nat by lia.
    replace (((m ++ d :: ws) ++ [c]) ++ tail)
      with (m ++ d :: ws ++ (c :: tail))
      by (rewrite <- ?app_assoc; simpl; rewrite <- ?app_assoc; reflexivity).
    apply IH; [assumption|lia].
Qed.

Lemma TrimRightFunc_blank m d ws :
  plain d = true -> ascii_blank ws ->
  strings.TrimRightFunc (m ++ d :: ws) unicode.IsSpace = m ++ [d].
Proof.
  intros Hd Hws. unfold strings.TrimRightFunc, strings.lastIndexFunc.
  replace (length (m ++ d :: ws)) with (length m + 1 + length ws)%nat
    by (rewrite length_app; simpl; lia).
  pose proof (lastIndexFunc_loop_blank m d ws Hd Hws
                (S (length m + 1 + length ws)) [] ltac:(lia)) as L.
  rewrite app_nil_r in L. rewrite L.
  assert (utf8.byte_at (m ++ d :: ws) (Z.of_nat (length m)) = code d) as B
    by (unfold utf8.byte_at; now rewrite Nat2Z.id, nth_middle).
  rewrite B. unfold plain in Hd. apply andb_true_iff in Hd as [Hd _].
  destruct (Z.leb_spec utf8.RuneSelf (code d));
    [apply Z.ltb_lt in Hd; lia|].
  replace (m ++ d :: ws) with ((m ++ [d]) ++ ws)
    by (rewrite <- app_assoc; reflexivity).
  apply firstn_exact. rewrite length_app. reflexivity.
Qed.

(** ASCII white space around a string of bytes that are no white space is
    trimmed away, and nothing else. *)
Lemma TrimSpace_around ws1 s ws2 :
  ascii_blank ws1 -> ascii_blank ws2 ->
  Forall (fun c => plain c = true) s ->
  strings.TrimSpace (ws1 ++ s ++ ws2) = s.
Proof.
  intros H1 H2 Hs. unfold strings.TrimSpace, strings.TrimFunc.
  assert (strings.TrimLeftFunc (ws1 ++ s ++ ws2) unicode.IsSpace
          = strings.TrimLeftFunc (s ++ ws2) unicode.IsSpace) as ->.
  { unfold ascii_blank in H1.
    induction H1 as [|c ws Hc _ IH]; [reflexivity|].
    simpl app. now rewrite TrimLeftFunc_space. }
  destruct s as [|c t].
  - simpl app. fold (strings.TrimFunc ws2 unicode.IsSpace).
    fold (strings.TrimSpace ws2).
    apply TrimSpace_WhiteSpace. now apply WhiteSpace_ascii.
  - simpl app. rewrite TrimLeftFunc_plain by now inversion Hs.
    destruct (exists_last (l := c :: t)) as [m [d E]]; [discriminate|].
    change (c :: t ++ ws2) with ((c :: t) ++ ws2).
    rewrite E in *. rewrite <- app_assoc. simpl app.
    apply TrimRightFunc_blank; [|assumption].
    apply Forall_app in Hs as [_ Hs]. now inversion Hs.
Qed.

Lemma ToIntByPrecise_value_trimmed a b p :
  strings.TrimSpace a = strings.TrimSpace b ->
  ToIntByPrecise_value a p = ToIntByPrecise_value b p.
Proof.
  intros E. rewrite !ToIntByPrecise_value_eq.
  unfold effectivePrecision, digitString, intPart, fracPart,
    ToIntByPrecise_parts.
  now rewrite E.
Qed.

(** X8: spaces, tabs and line ends before and after the amount do not
    change the result: for a string [s] of ASCII bytes that are no white
    space, [ToIntByPrecise] of [s] with such white space around it is
    [ToIntByPrecise] of [s]. *)
Theorem ToIntByPrecise_ignores_blanks (ws1 s ws2 : gostring) (p : Z) :
  ascii_blank ws1 -> ascii_blank ws2 ->
  Forall (fun c => plain c = true) s ->
  ToIntByPrecise_value (ws1 ++ s ++ ws2) p = ToIntByPrecise_value s p.
Proof.
  intros H1 H2 Hs. apply ToIntByPrecise_value_trimmed.
  rewrite TrimSpace_around by assumption.
  symmetry. now apply TrimSpace_plain.
Qed.

Lemma ToIntByPrecise_ignores_blanks_witness :
  ToIntByPrecise_value
    (bytes " " ++ bytes "0.01" ++ [" "%char; "010"%char]) 18
  = ToIntByPrecise_value "0.01" 18.
Proof.
  apply (ToIntByPrecise_ignores_blanks " " "0.01" [" "%char; "010"%char] 18).
  - unfold ascii_blank.
    repeat (apply Forall_cons; [simpl; tauto|]). apply Forall_nil.
  - unfold ascii_blank.
    repeat (apply Forall_cons; [simpl; tauto|]). apply Forall_nil.
  - repeat constructor.
Defined.

(* ------------------------------------------------------------------ *)
(** ** Further properties of [ToStringByPrecise] *)

Lemma setFromScanner_minus_ok old ds :
  ds <> [] -> all_digits ds ->
  big.setFromScanner old ("-"%char :: ds) = (- digits_value ds, true).
Proof.
  unfold all_digits. intros Hne H. unfold big.setFromScanner.
  cbn [big.scanSign]. change (Ascii.eqb "-" "-") with true. cbv iota.
  replace (big.scan_digits ds 0 0)
    with (big.scan_digits (ds ++ []) 0 0) by now rewrite app_nil_r.
  rewrite scan_digits_app by assumption. cbn [big.scan_digits Nat.add].
  fold (digits_value ds).
  destruct ds as [|c t]; [congruence|]. reflexivity.
Qed.

(** What [String] prints, [SetString] reads back. *)
Lemma setFromScanner_Text old x :
  big.setFromScanner old (big.Text x) = (x, true).
Proof.
  unfold big.Text. destruct (Z.ltb_spec x 0).
  - rewrite setFromScanner_minus_ok.
    + rewrite utoa_value by lia. f_equal. lia.
    + apply utoa_nonempty.
    + apply utoa_digits. lia.
  - rewrite setFromScanner_digits.
    + now rewrite utoa_value.
    + apply utoa_nonempty.
    + now apply utoa_digits.
Qed.

Lemma Text_plain x : Forall (fun c => plain c = true) (big.Text x).
Proof.
  unfold big.Text. destruct (Z.ltb_spec x 0).
  - constructor; [reflexivity|]. apply digits_plain, utoa_digits. lia.
  - now apply digits_plain, utoa_digits.
Qed.

Lemma Text_no_dot x : ~ In "."%char (big.Text x).
Proof.
  unfold big.Text. destruct (Z.ltb_spec x 0).
  - intros [E|E]; [discriminate E|].
    revert E. apply digits_no_dot, utoa_digits. lia.
  - now apply digits_no_dot, utoa_digits.
Qed.

(** X9: the string [ToStringByPrecise] returns for an integer is always
    the text of an integer: it has no [.], and [SetString] accepts it and
    reads it back as the quotient of the argument by the power of ten of
    lines 166-170. *)
Theorem ToStringByPrecise_parses_back (x p : Z) (s : gostring) :
  ToStringByPrecise_value (Some x) p = Some s ->
  big.setFromScanner 0 s = (x / 10 ^ ToStringByPrecise_precise p, true) /\
  ~ In "."%char s.
Proof.
  rewrite ToStringByPrecise_value_eq. intros E. injection E as <-.
  split; [apply setFromScanner_Text|apply Text_no_dot].
Qed.

Lemma ToStringByPrecise_parses_back_witness :
  big.setFromScanner 0 (bytes "-124")
  = (-1234 / 10 ^ ToStringByPrecise_precise (-1), true) /\
  ~ In "."%char (bytes "-124").
Proof.
  apply (ToStringByPrecise_parses_back (-1234) (-1) "-124").
  reflexivity.
Defined.

(** X10: [ToStringByPrecise] prints an integer [q] of the sign of its
    argument [x] and of no larger magnitude.  The division rounds down, so
    that a negative argument is never printed as 0. *)
Theorem ToStringByPrecise_keeps_sign (x p : Z) :
  exists q,
    ToStringByPrecise_value (Some x) p = Some (big.Text q) /\
    (0 <= x -> 0 <= q <= x) /\
    (x < 0 -> x <= q < 0).
Proof.
  exists (x / 10 ^ ToStringByPrecise_precise p).
  split; [apply ToStringByPrecise_value_eq|].
  pose proof (pow10_pos _ (ToStringByPrecise_precise_nonneg p)) as Hd.
  set (d := 10 ^ ToStringByPrecise_precise p) in *.
  split; intros Hx.
  - split; [apply Z.div_pos; lia|].
    apply Z.div_le_upper_bound; nia.
  - split.
    + apply Z.div_le_lower_bound; nia.
    + apply Z.div_lt_upper_bound; lia.
Qed.

Lemma ToStringByPrecise_keeps_sign_witness :
  exists q,
    ToStringByPrecise_value (Some (-1)) (-18) = Some (big.Text q) /\
    (0 <= -1 -> 0 <= q <= -1) /\
    (-1 < 0 -> -1 <= q < 0).
Proof.
  apply (ToStringByPrecise_keeps_sign (-1) (-18)).
Defined.

(* ------------------------------------------------------------------ *)
(** ** The two functions together *)

Lemma rdigits_fuel f1 :
  forall f2 n,
    0 < n -> n < 2 ^ Z.of_nat f1 -> n < 2 ^ Z.of_nat f2 ->
    big.rdigits f1 n = big.rdigits f2 n.
Proof.
  induction f1 as [|f1 IH]; intros f2 n Hn H1 H2.
  - simpl in H1. lia.
  - destruct f2 as [|f2]; [simpl in H2; lia|].
    cbn [big.rdigits]. f_equal.
    destruct (Z.ltb_spec n 10); [reflexivity|].
    rewrite Nat2Z.inj_succ, Z.pow_succ_r in H1, H2 by lia.
    apply IH.
    + apply Z.div_str_pos. lia.
    + apply Z.div_lt_upper_bound; lia.
    + apply Z.div_lt_upper_bound; lia.
Qed.

Lemma log2_fuel n : 0 < n -> n < 2 ^ Z.of_nat (S (Z.to_nat (Z.log2 n))).
Proof.
  intros Hn. rewrite Nat2Z.inj_succ, Z2Nat.id by apply Z.log2_nonneg.
  apply Z.log2_spec. assumption.
Qed.

Lemma utoa_small n : 0 <= n < 10 -> big.utoa n = [big.digit_char n].
Proof.
  intros H. unfold big.utoa. cbn [big.rdigits].
  destruct (Z.ltb_spec n 10); [|lia].
  rewrite Z.mod_small by lia. reflexivity.
Qed.

Lemma utoa_step n :
  10 <= n -> big.utoa n = big.utoa (n / 10) ++ [big.digit_char (n mod 10)].
Proof.
  intros H. unfold big.utoa at 1. cbn [big.rdigits].
  destruct (Z.ltb_spec n 10); [lia|].
  cbn [rev]. f_equal. unfold big.utoa. f_equal.
  assert (0 < n / 10) as Hq by (apply Z.div_str_pos; lia).
  apply rdigits_fuel; [assumption| |now apply log2_fuel].
  pose proof (log2_fuel n ltac:(lia)) as L.
  rewrite Nat2Z.inj_succ, Z.pow_succ_r in L by lia.
  apply Z.div_lt_upper_bound; lia.
Qed.

Lemma digit_char_val c :
  big.is_digit c = true -> big.digit_char (big.digit_val c) = c.
Proof.
  destruct c as [[] [] [] [] [] [] [] []]; intros H; vm_compute in H;
    try discriminate H; reflexivity.
Qed.

Lemma digit_val_range c : big.is_digit c = true -> 0 <= big.digit_val c < 10.
Proof.
  unfold big.is_digit, big.digit_val. intros H.
  apply andb_true_iff in H as [H1 H2]. apply Z.leb_le in H1, H2. lia.
Qed.

Lemma digit_val_zero c :
  big.is_digit c = true -> big.digit_val c = 0 -> c = "0"%char.
Proof.
  intros H E. rewrite <- (digit_char_val c H), E. reflexivity.
Qed.

(** Digits that do not start with [0] are printed back as they are. *)
Lemma utoa_leading c t :
  all_digits (c :: t) -> c <> "0"%char ->
  big.utoa (digits_value (c :: t)) = c :: t /\ 1 <= digits_value (c :: t).
Proof.
  unfold all_digits. induction t as [|d t IH] using rev_ind; intros H Hc.
  - inversion H as [|? ? Hd _]; subst.
    pose proof (digit_val_range c Hd) as R.
    assert (big.digit_val c <> 0) as Nz
      by (intros E; apply Hc; now apply digit_val_zero).
    change (digits_value [c]) with (0 * 10 + big.digit_val c).
    rewrite Z.mul_0_l, Z.add_0_l.
    rewrite utoa_small by lia. rewrite digit_char_val by assumption.
    split; [reflexivity|lia].
  - rewrite app_comm_cons in *. apply Forall_app in H as [H Hd].
    inversion Hd as [|? ? Hd' _]; subst.
    destruct (IH H Hc) as [IHu IHv].
    pose proof (digit_val_range d Hd') as R.
    rewrite digits_value_app.
    set (n := digits_value (c :: t)) in *.
    assert ((n * 10 + big.digit_val d) / 10 = n) as Q
      by (symmetry; apply (Z.div_unique _ 10 n (big.digit_val d)); lia).
    assert ((n * 10 + big.digit_val d) mod 10 = big.digit_val d) as Md
      by (symmetry; apply (Z.mod_unique _ 10 n (big.digit_val d)); lia).
    rewrite utoa_step by lia. rewrite Q, Md, IHu.
    rewrite digit_char_val by assumption. split; [reflexivity|lia].
Qed.

Lemma Text_canonical ds : canonical ds -> big.Text (digits_value ds) = ds.
Proof.
  intros [Hd [->|[c [t [-> Hc]]]]]; [reflexivity|].
  destruct (utoa_leading c t Hd Hc) as [U V].
  now rewrite Text_nonneg by lia.
Qed.

(** X11: from text to integer and back.  For digits [ds] as [String]
    prints them and a precision [p >= 1], [ToIntByPrecise(ds, p)] followed
    by [ToStringByPrecise] of its result with the precision [-p] does not
    panic and returns the string [ds] itself.  The integer keeps its value
    [ds * 10^p] through the second call, and the cells the caller had are
    untouched. *)
Theorem scale_then_print_roundtrip (ds : gostring) (p : Z) (h : heap) :
  canonical ds -> 1 <= p <= max_int64 ->
  exists h',
    scale_then_print ds p (- p) h = Some ((Some (length h), ds), h') /\
    deref h' (Some (length h)) = Some (digits_value ds * 10 ^ p) /\
    forall l, (l < length h)%nat -> nth_error h' l = nth_error h l.
Proof.
  intros Hc Hp. pose proof Hc as [Hd _].
  pose proof (ToIntByPrecise_run ds p h) as R. cbv zeta in R.
  pose proof (ToIntByPrecise_digits ds p Hd ltac:(lia)) as V.
  rewrite ToIntByPrecise_value_eq, Z.max_r in V by lia.
  injection V as V. rewrite V in R.
  set (cells := if 0 <? effectivePrecision ds p
                then [10 ^ effectivePrecision ds p; 10;
                      effectivePrecision ds p]
                else []) in *.
  set (v := digits_value ds * 10 ^ p) in *.
  assert (nth_error (h ++ v :: cells) (length h) = Some v) as L
    by (rewrite nth_error_app2 by lia; now rewrite Nat.sub_diag).
  pose proof (ToStringByPrecise_run (length h) v (- p) (h ++ v :: cells) L)
    as S.
  cbv zeta in S.
  rewrite ToStringByPrecise_precise_neg_arg in S
    by (unfold min_int64, max_int64 in *; lia).
  rewrite Z.opp_involutive in S.
  assert (v / 10 ^ p = digits_value ds) as Q
    by (subst v; apply Z.div_mul; pose proof (pow10_pos p); lia).
  rewrite Q, Text_canonical in S by assumption.
  eexists. split; [|split].
  - unfold scale_then_print, bind. rewrite R, S. reflexivity.
  - unfold deref. rewrite <- app_assoc, nth_error_app2 by lia.
    now rewrite Nat.sub_diag.
  - intros l Hl. rewrite <- app_assoc. now apply nth_error_app1.
Qed.

Lemma scale_then_print_roundtrip_witness :
  exists h',
    scale_then_print "120" 6 (- 6) [7; 8]
    = Some ((Some (length [7; 8]), bytes "120"), h') /\
    deref h' (Some (length [7; 8])) = Some (digits_value "120" * 10 ^ 6) /\
    forall l, (l < length [7; 8])%nat -> nth_error h' l = nth_error [7; 8] l.
Proof.
  apply (scale_then_print_roundtrip "120" 6 [7; 8]).
  - split; [repeat constructor|].
    right. exists "1"%char, (bytes "20"). split; [reflexivity|discriminate].
  - unfold max_int64. lia.
Defined.

Lemma ToIntByPrecise_of_Text_neg q p :
  q < 0 -> 0 <= p <= max_int64 ->
  ToIntByPrecise_value (big.Text q) p = Some (q * 10 ^ Z.max 1 p).
Proof.
  intros Hq Hp.
  rewrite ToIntByPrecise_value_eq.
  unfold effectivePrecision, digitString, intPart, fracPart.
  rewrite parts_no_dot by apply Text_no_dot.
  rewrite TrimSpace_plain by apply Text_plain.
  cbn [nth].
  unfold big.Text. destruct (Z.ltb_spec q 0); [|lia].
  pose proof (utoa_digits (- q) ltac:(lia)) as Hd.
  change (bytes "0") with ["0"%char]. rewrite <- app_comm_cons.
  rewrite setFromScanner_minus
    by (unfold all_digits; apply Forall_app; split;
        [assumption|repeat constructor]).
  rewrite digits_value_app, utoa_value by lia.
  rewrite precise_in_range
    by (unfold in_int64, min_int64, max_int64, len in *; simpl; lia).
  change (len ["0"%char]) with 1. change (big.digit_val "0") with 0.
  f_equal.
  replace (Z.max 1 p) with (1 + Z.max 0 (p - 1)) by lia.
  rewrite Z.pow_add_r by lia. change (10 ^ 1) with 10. ring.
Qed.

(** X12: from integer to text and back, as the code stands.  For every
    integer [n], negative or not, and every precision [p >= 0],
    [ToStringByPrecise] prints all of [n] and [ToIntByPrecise] scales it
    up: the round trip returns [n * 10^p] for [p >= 1] and [n * 10] for
    [p = 0]. *)
Theorem roundtrip_scales_up (n p : Z) :
  0 <= p <= max_int64 ->
  roundtrip n p = Some (n * 10 ^ Z.max 1 p).
Proof.
  intros Hp. unfold roundtrip.
  rewrite ToStringByPrecise_value_eq.
  rewrite ToStringByPrecise_precise_nonneg_arg by assumption.
  change (10 ^ 0) with 1. rewrite Z.div_1_r.
  destruct (Z.lt_ge_cases n 0).
  - now apply ToIntByPrecise_of_Text_neg.
  - now apply ToIntByPrecise_of_Text.
Qed.

Lemma roundtrip_scales_up_witness :
  roundtrip (-15) 2 = Some (-15 * 10 ^ Z.max 1 2).
Proof.
  apply (roundtrip_scales_up (-15) 2). unfold max_int64. lia.
Defined.

(** X13: two calls of [ToIntByPrecise] never share their result.  The
    pointers they return are different, each integer is the one its own
    call computed, also after the other call, and the cells the caller had
    are untouched. *)
Theorem two_amounts_do_not_alias
        (a : gostring) (p : Z) (b : gostring) (q : Z) (h : heap) :
  exists x y h',
    two_amounts a p b q h = Some ((x, y), h') /\
    x <> y /\
    deref h' x = ToIntByPrecise_value a p /\
    deref h' y = ToIntByPrecise_value b q /\
    forall l, (l < length h)%nat -> nth_error h' l = nth_error h l.
Proof.
  pose proof (ToIntByPrecise_run a p h) as R1. cbv zeta in R1.
  set (c1 := if 0 <? effectivePrecision a p
             then [10 ^ effectivePrecision a p; 10; effectivePrecision a p]
             else []) in *.
  set (va := fst (big.setFromScanner 0 (digitString a))
             * 10 ^ effectivePrecision a p) in *.
  pose proof (ToIntByPrecise_run b q (h ++ va :: c1)) as R2. cbv zeta in R2.
  set (c2 := if 0 <? effectivePrecision b q
             then [10 ^ effectivePrecision b q; 10; effectivePrecision b q]
             else []) in *.
  set (vb := fst (big.setFromScanner 0 (digitString b))
             * 10 ^ effectivePrecision b q) in *.
  eexists. eexists. eexists. split; [|split; [|split; [|split]]].
  - unfold two_amounts, bind. rewrite R1, R2. reflexivity.
  - rewrite length_app. simpl. intros E. injection E as E. lia.
  - rewrite ToIntByPrecise_value_eq. unfold deref.
    rewrite <- app_assoc, nth_error_app2 by lia.
    now rewrite Nat.sub_diag.
  - rewrite ToIntByPrecise_value_eq. unfold deref.
    rewrite nth_error_app2 by lia. now rewrite Nat.sub_diag.
  - intros l Hl. rewrite <- app_assoc. now apply nth_error_app1.
Qed.

(** X14: [ToStringByPrecise] keeps the order of the integers it prints:
    for [x <= y] and one precision, the integer printed for [x] is at most
    the one printed for [y]. *)
Theorem ToStringByPrecise_monotone (x y p : Z) :
  x <= y ->
  exists qx qy,
    ToStringByPrecise_value (Some x) p = Some (big.Text qx) /\
    ToStringByPrecise_value (Some y) p = Some (big.Text qy) /\
    qx <= qy.
Proof.
  intros H.
  exists (x / 10 ^ ToStringByPrecise_precise p),
         (y / 10 ^ ToStringByPrecise_precise p).
  rewrite !ToStringByPrecise_value_eq. repeat split.
  apply Z.div_le_mono; [|assumption].
  apply pow10_pos, ToStringByPrecise_precise_nonneg.
Qed.

Lemma ToStringByPrecise_monotone_witness :
  exists qx qy,
    ToStringByPrecise_value (Some (-15)) (-1) = Some (big.Text qx) /\
    ToStringByPrecise_value (Some 1234) (-1) = Some (big.Text qy) /\
    qx <= qy.
Proof.
  apply (ToStringByPrecise_monotone (-15) 1234 (-1)). lia.
Defined.
